(** * DiLib: the [Injector] dependency-injection container

    A shallow embedding of [src/injector.ts] and [src/injection-token.ts].

    The container is a JavaScript object whose methods call user-supplied
    factories, and those factories call back into the container.  The
    embedding therefore has three layers:

    - the data of the source ([Key], [StoreItem], [GetOptions], the
      registry [Map]) together with the part of the JavaScript heap the
      source touches (StoreItem objects, plain objects, [Proxy] objects);
    - a small inductive language [prog] in which factories and client code
      are written: it offers exactly the operations a factory can perform on
      the container ([get], [add]) and on objects (allocation, property
      read, property write, [throw], [try]/[catch]);
    - a fuel-indexed interpreter in which [get] is transcribed statement by
      statement from [Injector.get].  Running out of fuel stands for a call
      stack that never unwinds.

    What is modelled of the language itself:

    - objects are records of own data properties; prototype chains and
      accessor properties are left out, numbers are integers;
    - [typeof], ToBoolean, [Reflect.get] and [Reflect.set] follow the
      language specification on these values.  In particular [Reflect.set]
      runs OrdinarySet, which creates the data property on the _receiver_
      it is given, and a [Proxy] without a [defineProperty] trap passes
      such a definition on to its own target;
    - a [trace] of ghost events records when a flag is set, a factory is
      called, a slot is assigned and a deferred reference is created. *)

From Stdlib Require Import ZArith Lia.
From stdpp Require Import base option list gmap strings.

Open Scope string_scope.
Open Scope nat_scope.
Open Scope list_scope.

(** ** Identifiers *)

(** Heap addresses of StoreItem objects and of ordinary objects. *)
Abbreviation loc := nat (only parsing).

(** A registry key is a class constructor or an [InjectionToken].  Both are
    JavaScript objects compared by reference: [id] stands for the object's
    identity, the string is what the object prints as ([_desc] for a token,
    the function's source text for a constructor). *)
Inductive Key : Type :=
| Constructor (id : positive) (src : string)
| InjectionToken (id : positive) (_desc : string).

#[global] Instance Key_eq_dec : EqDecision Key.
Proof. solve_decision. Defined.

#[global] Instance Key_countable : Countable Key.
Proof.
  refine (inj_countable'
    (λ k, match k with
          | Constructor i s => inl (i, s)
          | InjectionToken i s => inr (i, s)
          end)
    (λ x, match x with
          | inl (i, s) => Constructor i s
          | inr (i, s) => InjectionToken i s
          end) _).
  by intros [].
Defined.

(** [`${Key}`]: [InjectionToken.toString] returns [_desc]; a constructor
    prints as its source text. *)
Definition toString (K : Key) : string :=
  match K with
  | Constructor _ src => src
  | InjectionToken _ d => d
  end.

(** ** JavaScript values *)

(** [VObj], [VFun] and [VProxy] are references.  [VFun l] is a callable
    object.  [VProxy d K] is an object built by
    [new Proxy({}, handler)] inside [Injector.get]: [d] is the address of
    the fresh [{}] target and [K] the identifier the handler closes over
    (the handler also closes over the injector, of which there is one). *)
Inductive value : Type :=
| VUndef
| VNull
| VBool (b : bool)
| VNum (z : Z)
| VStr (str : string)
| VObj (l : loc)
| VFun (l : loc)
| VProxy (d : loc) (K : Key).

#[global] Instance value_eq_dec : EqDecision value.
Proof. solve_decision. Defined.

(** [typeof v]. *)
Definition typeof (v : value) : string :=
  match v with
  | VUndef => "undefined"
  | VNull => "object"
  | VBool _ => "boolean"
  | VNum _ => "number"
  | VStr _ => "string"
  | VObj _ => "object"
  | VFun _ => "function"
  | VProxy _ _ => "object"
  end.

(** ToBoolean, as used by [if (storeItem.instance)] and [if (token)]. *)
Definition truthy (v : value) : bool :=
  match v with
  | VUndef | VNull => false
  | VBool b => b
  | VNum z => negb (z =? 0)%Z
  | VStr str => negb (String.eqb str EmptyString)
  | VObj _ | VFun _ | VProxy _ _ => true
  end.

(** Type(v) is Object, in the sense of the language specification. *)
Definition is_Object (v : value) : bool :=
  match v with
  | VObj _ | VFun _ | VProxy _ _ => true
  | _ => false
  end.

(** ** Errors *)

Inductive error : Type :=
| Error (message : string)
| TypeError (message : string)
| Thrown (v : value).

(** ** Programs: factories and client code *)

(** [GetOptions]: both fields are optional in the source.  An omitted
    [params] is [undefined]. *)
Record GetOptions : Type := mkOptions {
  singleton : option bool;
  params : value
}.

(** [options = {}]. *)
Definition default_options : GetOptions :=
  {| singleton := None; params := VUndef |}.

(** Code that runs against the container.  Continuations make the type a
    free monad over the container's operations. *)
Inductive prog : Type :=
| Ret (v : value)
| Throw (e : error)
| Resolve (K : Key) (options : GetOptions) (k : value → prog)
| Provide (factory : value → prog) (key : Key) (token : option Key) (k : prog)
| NewObj (fields : list (string * value)) (k : value → prog)
| NewFun (fields : list (string * value)) (k : value → prog)
| ReadProp (o : value) (prop : string) (k : value → prog)
| WriteProp (o : value) (prop : string) (val : value) (k : prog)
| Try (body : prog) (handler : error → prog) (k : value → prog).

(** [ServiceFactory<T, Params>]: the injector argument is the one
    container, reached through [Resolve] and [Provide]. *)
Definition ServiceFactory : Type := value → prog.

(** ** The heap *)

Record StoreItem : Type := mkStoreItem {
  initialized : bool;
  factory : ServiceFactory;
  instance : value
}.

(** Own data properties of an ordinary object.  Prototype chains and
    accessor properties are outside the model. *)
Abbreviation obj := (gmap string value).

(** Ghost record of what the container did, oldest event first. *)
Inductive event : Type :=
| EvInit (l : loc)
| EvFactory (l : loc) (single : bool) (p : value)
| EvStore (l : loc) (v : value)
| EvDeferred (K : Key) (d : loc).

(** The injector and the heap it lives in.  [_registry] maps a key to the
    address of a StoreItem object, so two keys can share one object. *)
Record State : Type := mkState {
  _registry : gmap Key loc;
  items : list StoreItem;
  objs : list obj;
  trace : list event
}.

(** [new Injector()]. *)
Definition new_Injector : State :=
  {| _registry := ∅; items := []; objs := []; trace := [] |}.

Definition log (e : event) (s : State) : State :=
  {| _registry := _registry s; items := items s; objs := objs s;
     trace := trace s ++ [e] |}.

Definition with_items (f : list StoreItem → list StoreItem) (s : State) : State :=
  {| _registry := _registry s; items := f (items s); objs := objs s;
     trace := trace s |}.

Definition with_objs (f : list obj → list obj) (s : State) : State :=
  {| _registry := _registry s; items := items s; objs := f (objs s);
     trace := trace s |}.

(** [storeItem.initialized = true] on the object at [l]. *)
Definition set_initialized (l : loc) (s : State) : State :=
  log (EvInit l)
    (with_items (alter (λ it, {| initialized := true; factory := factory it;
                                 instance := instance it |}) l) s).

(** [storeItem.instance = v] on the object at [l]. *)
Definition set_instance (l : loc) (v : value) (s : State) : State :=
  log (EvStore l v)
    (with_items (alter (λ it, {| initialized := initialized it;
                                 factory := factory it;
                                 instance := v |}) l) s).

(** Allocation of an ordinary object; its address is [length (objs s)]. *)
Definition alloc (fields : list (string * value)) (s : State) : State :=
  with_objs (λ os, os ++ [list_to_map fields]) s.

(** [o[prop]] for an ordinary object at [l]. *)
Definition field (l : loc) (prop : string) (s : State) : value :=
  default VUndef (objs s !! l ≫= (.!! prop)).

(** CreateDataProperty / [[DefineOwnProperty]] of a data property on the
    ordinary object at [l]. *)
Definition define_field (l : loc) (prop : string) (val : value) (s : State) : State :=
  with_objs (alter (λ o : obj, <[prop := val]> o) l) s.

(** ** [Injector.add] *)

Definition add (factory : ServiceFactory) (key : Key) (token : option Key)
    (s : State) : State :=
  let storeItem :=
    {| initialized := false; factory := factory; instance := VNull |} in
  let l := length (items s) in
  let registry1 :=
    match token with
    | Some t => <[t := l]> (_registry s)
    | None => _registry s
    end in
  {| _registry := <[key := l]> registry1;
     items := items s ++ [storeItem];
     objs := objs s;
     trace := trace s |}.

(** ** Lookup *)

(** [registry.get(Key)], dereferenced. *)
Definition registry_get (K : Key) (s : State) : option (loc * StoreItem) :=
  l ← _registry s !! K; it ← items s !! l; Some (l, it).

(** [InjectionToken.find]. *)
Definition find (_desc : string) (K : Key) (s : State) : (loc * StoreItem) + error :=
  match registry_get K s with
  | Some r => inl r
  | None => inr (Error ("Token " +:+ _desc +:+ " is not registered"))
  end.

(** The first statement of [Injector.get] together with its [if (!storeItem)]. *)
Definition lookup (K : Key) (s : State) : (loc * StoreItem) + error :=
  match K with
  | InjectionToken _ d => find d K s
  | Constructor _ _ =>
      match registry_get K s with
      | Some r => inl r
      | None => inr (Error (toString K +:+ " is not registered"))
      end
  end.

(** ** Outcomes *)

Inductive outcome : Type :=
| Done (v : value) (s : State)
| Raised (e : error) (s : State)
| OutOfFuel.

Definition bind (r : outcome) (k : value → State → outcome) : outcome :=
  match r with
  | Done v s => k v s
  | Raised e s => Raised e s
  | OutOfFuel => OutOfFuel
  end.

Notation "'let*' x ':=' r 'in' k" := (bind r (λ x, k))
  (at level 10, x name, r at level 100, k at level 200).

Definition final (r : outcome) : option State :=
  match r with
  | Done _ s | Raised _ s => Some s
  | OutOfFuel => None
  end.

(** What the caller gets back, without the state. *)
Definition answer (r : outcome) : option (value + error) :=
  match r with
  | Done v _ => Some (inl v)
  | Raised e _ => Some (inr e)
  | OutOfFuel => None
  end.

(** ** [Reflect] and the proxy handler *)

Definition instance_not_found (K : Key) : error :=
  Error ("DI: instance of " +:+ toString K +:+ " not found").

Section Handler.
(** The internal methods [[Get]] and [[Set]] and the injector's [get],
    tied together by the interpreter below. *)
Variable get : Key → GetOptions → State → outcome.
Variable Get : value → string → value → State → outcome.
Variable Set_ : value → string → value → value → State → outcome.

(** [Reflect.get(target, prop, receiver)]. *)
Definition Reflect_get (target : value) (prop : string) (receiver : value)
    (s : State) : outcome :=
  if is_Object target then Get target prop receiver s
  else Raised (TypeError "Reflect.get called on non-object") s.

(** [Reflect.set(target, prop, val, receiver)]. *)
Definition Reflect_set (target : value) (prop : string) (val receiver : value)
    (s : State) : outcome :=
  if is_Object target then Set_ target prop val receiver s
  else Raised (TypeError "Reflect.set called on non-object") s.

(** The [get] trap of the handler built in [Injector.get]. *)
Definition handler_get (Key : Key) (prop : string) (receiver : value)
    (s : State) : outcome :=
  let* target := get Key default_options s in
  λ s, if negb (String.eqb (typeof target) "object")
       then Raised (instance_not_found Key) s
       else Reflect_get target prop receiver s.

(** The [set] trap. *)
Definition handler_set (Key : Key) (prop : string) (val receiver : value)
    (s : State) : outcome :=
  let* target := get Key default_options s in
  λ s, if negb (String.eqb (typeof target) "object")
       then Raised (instance_not_found Key) s
       else Reflect_set target prop val receiver s.
End Handler.

(** The end of OrdinarySet on an object without accessors
    (OrdinarySetWithOwnDescriptor, steps 2.b to 2.e): if the receiver is
    not an object the result is [false]; otherwise the value becomes an own
    data property of the _receiver_, through the receiver's
    [[DefineOwnProperty]].  The handler built in [Injector.get] has no
    [defineProperty] trap, so for a deferred reference that definition is
    made on the reference's own [{}] target. *)
Definition define_on_receiver (receiver : value) (prop : string) (val : value)
    (s : State) : outcome :=
  match receiver with
  | VObj r | VFun r => Done (VBool true) (define_field r prop val s)
  | VProxy d _ => Done (VBool true) (define_field d prop val s)
  | _ => Done (VBool false) s
  end.

(** ** The interpreter *)

(** [run] executes client code, [get] is [Injector.get], [JS_Get] and
    [JS_Set] are the internal methods [[Get]] and [[Set]] of a value.  Every
    call costs one unit of fuel.  Property access on [null] or [undefined]
    raises a [TypeError]; so does a failed assignment, as in strict mode. *)
Fixpoint run (n : nat) (p : prog) (s : State) {struct n} : outcome :=
  match n with
  | 0 => OutOfFuel
  | S n =>
      match p with
      | Ret v => Done v s
      | Throw e => Raised e s
      | Resolve K options k =>
          let* v := get n K options s in run n (k v)
      | Provide f key token k =>
          run n k (add f key token s)
      | NewObj fields k =>
          run n (k (VObj (length (objs s)))) (alloc fields s)
      | NewFun fields k =>
          run n (k (VFun (length (objs s)))) (alloc fields s)
      | ReadProp o prop k =>
          match o with
          | VUndef | VNull =>
              Raised (TypeError "Cannot read properties of null or undefined") s
          | _ => let* v := JS_Get n o prop o s in run n (k v)
          end
      | WriteProp o prop val k =>
          match o with
          | VUndef | VNull =>
              Raised (TypeError "Cannot set properties of null or undefined") s
          | _ =>
              let* ok := JS_Set n o prop val o s in
              λ s', match ok with
                    | VBool false =>
                        Raised (TypeError "Cannot assign to property") s'
                    | _ => run n k s'
                    end
          end
      | Try body handler k =>
          match run n body s with
          | Done v s' => run n (k v) s'
          | Raised e s' => let* v := run n (handler e) s' in run n (k v)
          | OutOfFuel => OutOfFuel
          end
      end
  end

(** [Injector.get(Key, options)]. *)
with get (n : nat) (Key : Key) (options : GetOptions) (s : State)
    {struct n} : outcome :=
  match n with
  | 0 => OutOfFuel
  | S n =>
      let singleton := default true (singleton options) in
      let params := params options in
      match lookup Key s with
      | inr e => Raised e s
      | inl (l, storeItem) =>
          if negb singleton then
            run n (factory storeItem params) (log (EvFactory l false params) s)
          else if initialized storeItem then
            if truthy (instance storeItem) then
              Done (instance storeItem) s
            else
              Done (VProxy (length (objs s)) Key)
                   (log (EvDeferred Key (length (objs s))) (alloc [] s))
          else
            let s1 := set_initialized l s in
            let* v := run n (factory storeItem params)
                          (log (EvFactory l true params) s1) in
            λ s2, Done v (set_instance l v s2)
      end
  end

(** [O.[[Get]](P, Receiver)]. *)
with JS_Get (n : nat) (O : value) (P : string) (Receiver : value) (s : State)
    {struct n} : outcome :=
  match n with
  | 0 => OutOfFuel
  | S n =>
      match O with
      | VObj l | VFun l => Done (field l P s) s
      | VProxy _ K => handler_get (get n) (JS_Get n) K P Receiver s
      | _ => Done VUndef s
      end
  end

(** [O.[[Set]](P, V, Receiver)]. *)
with JS_Set (n : nat) (O : value) (P : string) (V Receiver : value) (s : State)
    {struct n} : outcome :=
  match n with
  | 0 => OutOfFuel
  | S n =>
      match O with
      | VObj _ | VFun _ => define_on_receiver Receiver P V s
      | VProxy _ K => handler_set (get n) (JS_Set n) K P V Receiver s
      | _ => Done (VBool false) s
      end
  end.

(** ** Reading the trace *)

Definition is_init (l : loc) (e : event) : bool :=
  match e with
  | EvInit l' => bool_decide (l' = l)
  | _ => false
  end.

(** A factory invocation made on the singleton path. *)
Definition is_call (l : loc) (e : event) : bool :=
  match e with
  | EvFactory l' true _ => bool_decide (l' = l)
  | _ => false
  end.

Definition is_store (l : loc) (e : event) : bool :=
  match e with
  | EvStore l' _ => bool_decide (l' = l)
  | _ => false
  end.

Definition touches (l : loc) (e : event) : bool :=
  is_init l e || is_call l e || is_store l e.

Definition count (f : event → bool) (tr : list event) : nat :=
  length (List.filter f tr).

(** ** How the heap of StoreItems may change *)

Definition uninit_in (s : State) (l : loc) : Prop :=
  ∀ it, items s !! l = Some it → initialized it = false.

Definition init_in (s : State) (l : loc) : Prop :=
  ∃ it, items s !! l = Some it ∧ initialized it = true.

(** The events [new] recorded between [s] and [s']: every StoreItem has its
    flag set, its factory called on the singleton path and its slot
    assigned at most once, and only if it was not [initialized] in [s]. *)
Definition once (s s' : State) (new : list event) : Prop :=
  ∀ l, count (is_init l) new ≤ 1 ∧
       count (is_call l) new ≤ 1 ∧
       count (is_store l) new ≤ 1 ∧
       (0 < count (touches l) new → uninit_in s l ∧ init_in s' l).

Record evolves (s s' : State) : Prop := mkEvolves {
  (** every StoreItem survives with its factory; one that is initialized is
      not written again *)
  ev_items : ∀ l it, items s !! l = Some it →
    ∃ it', items s' !! l = Some it' ∧ factory it' = factory it ∧
           (initialized it = true → it' = it);
  (** a StoreItem that is not initialized is as it was, or is new and empty *)
  ev_fresh : ∀ l it', items s' !! l = Some it' → initialized it' = false →
    items s !! l = Some it' ∨ (items s !! l = None ∧ instance it' = VNull);
  ev_trace : ∃ new, trace s' = trace s ++ new ∧ once s s' new
}.

(** Every final state of [r] is an evolution of [s]. *)
Definition sound (r : outcome) (s : State) : Prop :=
  ∀ s', final r = Some s' → evolves s s'.

(** ** Code that only constructs *)

(** A constructor body that allocates and returns, without touching the
    container or dereferencing anything. *)
Inductive builds : prog → Prop :=
| builds_Ret v : builds (Ret v)
| builds_NewObj fields k : (∀ v, builds (k v)) → builds (NewObj fields k)
| builds_NewFun fields k : (∀ v, builds (k v)) → builds (NewFun fields k).

(** [s] contains [sub] as a substring. *)
Definition names (message sub : string) : Prop :=
  ∃ pre post, message = pre +:+ sub +:+ post.

(** [p] returns normally from every state, given enough fuel, and leaves
    the container as it found it. *)
Definition constructs (p : prog) : Prop :=
  ∀ s, ∃ d v s',
    (∀ n, d ≤ n → run n p s = Done v s') ∧
    _registry s' = _registry s ∧ items s' = items s ∧ trace s' = trace s.

(** ** Sample containers *)

Module Example.

Definition A : Key := Constructor 1 "class A".
Definition B : Key := Constructor 2 "class B".
Definition MY_TOKEN : Key := InjectionToken 3 "MyToken".
(** A second token with the same description: a different identifier. *)
Definition OTHER : Key := InjectionToken 4 "MyToken".

(** [(injector) => new A(injector.get(B))] and its mirror image; each
    constructor stores its argument in a field. *)
Definition fA : ServiceFactory :=
  λ _, Resolve B default_options (λ b, NewObj [("b", b)] Ret).
Definition fB : ServiceFactory :=
  λ _, Resolve A default_options (λ a, NewObj [("a", a)] Ret).

(** [injector.add(fA, A); injector.add(fB, B)]. *)
Definition cyclic : State :=
  add fB B None (add fA A None new_Injector).

Definition transient : GetOptions :=
  {| singleton := Some false; params := VUndef |}.

(** [() => ({ x: 1 })]. *)
Definition plain : ServiceFactory :=
  λ _, NewObj [("x", VNum 1)] Ret.

(** [() => null], [() => ''] and [() => function () {}]. *)
Definition returns_null : ServiceFactory := λ _, Ret VNull.
Definition returns_empty_string : ServiceFactory := λ _, Ret (VStr EmptyString).
Definition returns_function : ServiceFactory := λ _, NewFun [] Ret.

(** [() => { throw 'boom' }]. *)
Definition throws : ServiceFactory := λ _, Throw (Thrown (VStr "boom")).

(** Client code: register both, then [injector.get(A)]. *)
Definition wire_and_resolve : prog :=
  Provide fA A None
    (Provide fB B None (Resolve A default_options Ret)).

(** The state after [injector.get(A)] on the cyclic container. *)
Definition cyclic_resolved : State :=
  match get 6 A default_options cyclic with
  | Done _ s => s
  | _ => cyclic
  end.

(** The deferred reference to [A] that [B]'s constructor received. *)
Definition ref_to_A : value := VProxy 0 A.

(** As [fA], but the service is a callable object. *)
Definition fA_callable : ServiceFactory :=
  λ _, Resolve B default_options (λ b, NewFun [("b", b)] Ret).

Definition callable_resolved : State :=
  match get 6 A default_options
          (add fB B None (add fA_callable A None new_Injector)) with
  | Done _ s => s
  | _ => new_Injector
  end.

(** [A] registered with a factory that throws, after a first
    [injector.get(A)] has failed and a second one has returned
    [ref_to_A]. *)
Definition stalled : State :=
  match get 2 A default_options (add throws A None new_Injector) with
  | Raised _ s =>
      match get 1 A default_options s with
      | Done _ s' => s'
      | _ => new_Injector
      end
  | _ => new_Injector
  end.

End Example.

(** ** Relations that every step of the container respects *)

(** Every final state of [r] is related to [s]. *)
Definition respects (R : State → State → Prop) (r : outcome) (s : State) : Prop :=
  ∀ s', final r = Some s' → R s s'.

(** No registry entry dangles. *)
Definition bound (s : State) : Prop :=
  ∀ K l, _registry s !! K = Some l → l < length (items s).

(** The registry only gains identifiers, and stays [bound]. *)
Definition retains (s s' : State) : Prop :=
  (∀ K, is_Some (_registry s !! K) → is_Some (_registry s' !! K)) ∧
  (bound s → bound s').

(** Every write to a StoreItem is on record: a StoreItem of [s] about which
    the events between [s] and [s'] say nothing is the same in [s']. *)
Definition logged (s s' : State) : Prop :=
  ∃ new, trace s' = trace s ++ new ∧
    ∀ l it, items s !! l = Some it → count (touches l) new = 0 →
            items s' !! l = Some it.

(** A slot is empty as long as the flag is not set. *)
Definition empty_until_initialized (s : State) : Prop :=
  ∀ l it, items s !! l = Some it → initialized it = false → instance it = VNull.

(** * Properties *)

(** ** Counting events *)

Lemma count_app f tr1 tr2 : count f (tr1 ++ tr2) = count f tr1 + count f tr2.
Proof. unfold count. by rewrite List.filter_app, length_app. Qed.

Lemma count_nil f : count f [] = 0.
Proof. reflexivity. Qed.

Lemma count_cons f e tr :
  count f (e :: tr) = (if f e then 1 else 0) + count f tr.
Proof. unfold count. simpl. by destruct (f e). Qed.

Lemma count_le f g tr :
  (∀ e, f e = true → g e = true) → count f tr ≤ count g tr.
Proof.
  intros Hfg. induction tr as [|e tr IH]; [done|].
  rewrite !count_cons. specialize (Hfg e).
  destruct (f e), (g e); lia.
Qed.

Lemma count_init_le l tr : count (is_init l) tr ≤ count (touches l) tr.
Proof. apply count_le. intros e He. unfold touches. by rewrite He. Qed.

Lemma count_call_le l tr : count (is_call l) tr ≤ count (touches l) tr.
Proof.
  apply count_le. intros e He. unfold touches. rewrite He.
  by destruct (is_init l e).
Qed.

Lemma count_store_le l tr : count (is_store l) tr ≤ count (touches l) tr.
Proof.
  apply count_le. intros e He. unfold touches. rewrite He.
  by destruct (is_init l e), (is_call l e).
Qed.

(** ** Lookup *)

Lemma lookup_inl K s l it :
  lookup K s = inl (l, it) ↔ _registry s !! K = Some l ∧ items s !! l = Some it.
Proof.
  unfold lookup, find, registry_get.
  destruct K; destruct (_registry s !! _) as [l'|]; simpl;
    try destruct (items s !! l') as [it'|] eqn:E; simpl;
    split; try (intros [? ?]); try intros ?; simplify_eq; try done.
  all: by rewrite E.
Qed.

Lemma lookup_unregistered K s :
  _registry s !! K = None →
  lookup K s = inr (Error (match K with
                           | InjectionToken _ d => "Token " +:+ d +:+ " is not registered"
                           | Constructor _ src => src +:+ " is not registered"
                           end)).
Proof.
  intros H. unfold lookup, find, registry_get. rewrite H. by destruct K.
Qed.

(** ** [evolves] is a preorder that every step respects *)

Lemma not_both s l : uninit_in s l → init_in s l → False.
Proof. intros Hu (it & Hit & Hi). specialize (Hu _ Hit). congruence. Qed.

Lemma once_nil s s' : once s s' [].
Proof. intros l. rewrite !count_nil. repeat split; lia. Qed.

Lemma evolves_refl s : evolves s s.
Proof.
  split.
  - intros l it H. by exists it.
  - intros l it H _. by left.
  - exists []. split; [by rewrite app_nil_r | apply once_nil].
Qed.

Lemma init_in_evolves s s' l : evolves s s' → init_in s l → init_in s' l.
Proof.
  intros [Hi _ _] (it & Hit & Htrue).
  destruct (Hi _ _ Hit) as (it' & Hit' & _ & Hsame).
  exists it'. specialize (Hsame Htrue). by subst it'.
Qed.

Lemma uninit_in_evolves s s' l : evolves s s' → uninit_in s' l → uninit_in s l.
Proof.
  intros Hev Hu it Hit. destruct (initialized it) eqn:E; [|done].
  exfalso. apply (not_both s' l Hu). apply (init_in_evolves s); [done|].
  by exists it.
Qed.

Lemma evolves_trans s1 s2 s3 : evolves s1 s2 → evolves s2 s3 → evolves s1 s3.
Proof.
  intros H12 H23. split.
  - intros l it Hit.
    destruct (ev_items _ _ H12 _ _ Hit) as (it2 & Hit2 & Hf2 & Hs2).
    destruct (ev_items _ _ H23 _ _ Hit2) as (it3 & Hit3 & Hf3 & Hs3).
    exists it3. split; [done|]. split; [congruence|].
    intros Hi. specialize (Hs2 Hi). subst it2. by apply Hs3.
  - intros l it3 Hit3 Hi.
    destruct (ev_fresh _ _ H23 _ _ Hit3 Hi) as [Hsame | [Hnone Hnull]].
    + apply (ev_fresh _ _ H12 _ _ Hsame Hi).
    + right. split; [|done].
      destruct (items s1 !! l) as [it1|] eqn:E; [|done].
      destruct (ev_items _ _ H12 _ _ E) as (it2 & Hit2 & _). congruence.
  - destruct (ev_trace _ _ H12) as (new1 & Ht1 & Ho1).
    destruct (ev_trace _ _ H23) as (new2 & Ht2 & Ho2).
    exists (new1 ++ new2). split; [by rewrite Ht2, Ht1, app_assoc|].
    intros l. rewrite !count_app.
    destruct (Ho1 l) as (Hi1 & Hc1 & Hs1 & Htouch1).
    destruct (Ho2 l) as (Hi2 & Hc2 & Hs2 & Htouch2).
    pose proof (count_init_le l new1). pose proof (count_call_le l new1).
    pose proof (count_store_le l new1). pose proof (count_init_le l new2).
    pose proof (count_call_le l new2). pose proof (count_store_le l new2).
    destruct (decide (0 < count (touches l) new1)) as [T1|T1];
      destruct (decide (0 < count (touches l) new2)) as [T2|T2].
    + exfalso. destruct (Htouch1 T1) as [_ Hin]. destruct (Htouch2 T2) as [Hun _].
      by apply (not_both s2 l).
    + destruct (Htouch1 T1) as [Hun Hin].
      repeat split; try lia; try done. by apply (init_in_evolves s2).
    + destruct (Htouch2 T2) as [Hun Hin].
      repeat split; try lia; try done. by apply (uninit_in_evolves s1 s2).
    + repeat split; lia.
Qed.

(** Steps that leave every StoreItem alone. *)
Lemma evolves_frame s s' new :
  items s' = items s → trace s' = trace s ++ new →
  (∀ l, count (touches l) new = 0) → evolves s s'.
Proof.
  intros Hitems Htrace Hquiet. split.
  - intros l it H. exists it. by rewrite Hitems.
  - intros l it H _. left. by rewrite <- Hitems.
  - exists new. split; [done|]. intros l. specialize (Hquiet l).
    pose proof (count_init_le l new). pose proof (count_call_le l new).
    pose proof (count_store_le l new). repeat split; lia.
Qed.

Lemma evolves_alloc fields s : evolves s (alloc fields s).
Proof. apply (evolves_frame _ _ []); [done | by rewrite app_nil_r | done]. Qed.

Lemma evolves_define_field l prop val s : evolves s (define_field l prop val s).
Proof. apply (evolves_frame _ _ []); [done | by rewrite app_nil_r | done]. Qed.

Lemma evolves_log e s : (∀ l, touches l e = false) → evolves s (log e s).
Proof.
  intros H. apply (evolves_frame _ _ [e]); [done | done |].
  intros l. rewrite count_cons, H. done.
Qed.

Lemma evolves_add f key token s : evolves s (add f key token s).
Proof.
  split; simpl.
  - intros l it H. exists it. split; [|done].
    rewrite lookup_app_l; [done|]. by eapply lookup_lt_Some.
  - intros l it' H Hi.
    destruct (decide (l < length (items s))) as [Hlt|Hge].
    + left. by rewrite lookup_app_l in H.
    + right. split; [apply lookup_ge_None_2; lia|].
      rewrite lookup_app_r in H by lia.
      destruct (l - length (items s)); simpl in H; [by simplify_eq | done].
  - exists []. split; [by rewrite app_nil_r | apply once_nil].
Qed.

Create HintDb heap.
#[local] Hint Resolve evolves_refl evolves_alloc evolves_define_field
  evolves_add : heap.

(** ** The singleton path of [get] *)

Lemma set_initialized_lookup l s it :
  items s !! l = Some it →
  items (set_initialized l s) !! l =
    Some {| initialized := true; factory := factory it; instance := instance it |}.
Proof.
  intros H. unfold set_initialized, set_instance, log, with_items.
  cbn [items]. by rewrite list_lookup_alter_eq, H.
Qed.

Lemma set_instance_lookup l v s it :
  items s !! l = Some it →
  items (set_instance l v s) !! l =
    Some {| initialized := initialized it; factory := factory it; instance := v |}.
Proof.
  intros H. unfold set_initialized, set_instance, log, with_items.
  cbn [items]. by rewrite list_lookup_alter_eq, H.
Qed.

Lemma items_log e s : items (log e s) = items s.
Proof. reflexivity. Qed.

Lemma evolves_begin s l it p :
  items s !! l = Some it → initialized it = false →
  evolves s (log (EvFactory l true p) (set_initialized l s)).
Proof.
  intros Hit Hfalse. split.
  - intros l' it' Hit'. destruct (decide (l' = l)) as [->|Hne].
    + rewrite items_log, (set_initialized_lookup _ _ _ Hit). eexists.
      split; [done|]. simplify_eq. split; [done|]. congruence.
    + exists it'. simpl. by rewrite list_lookup_alter_ne.
  - intros l' it' Hit' Hi. left. destruct (decide (l' = l)) as [->|Hne].
    + simpl in Hit'. rewrite list_lookup_alter_eq, Hit in Hit'.
      simpl in Hit'. by simplify_eq.
    + simpl in Hit'. by rewrite list_lookup_alter_ne in Hit'.
  - exists [EvInit l; EvFactory l true p]. split; [simpl; by rewrite <- app_assoc|].
    intros l'. rewrite !count_cons, !count_nil. unfold touches. simpl.
    case_bool_decide; simpl; repeat split; try lia.
    + intros it0 Hit0. subst. by simplify_eq.
    + subst. eexists. by rewrite items_log, (set_initialized_lookup _ _ _ Hit).
Qed.

Lemma evolves_construct s l it p s2 v :
  items s !! l = Some it → initialized it = false →
  evolves (log (EvFactory l true p) (set_initialized l s)) s2 →
  evolves s (set_instance l v s2).
Proof.
  intros Hit Hfalse H12.
  pose proof (evolves_begin s l it p Hit Hfalse) as H01.
  pose proof (evolves_trans _ _ _ H01 H12) as H02.
  set (s1 := log (EvFactory l true p) (set_initialized l s)) in *.
  assert (Hin1 : init_in s1 l).
  { eexists. unfold s1. by rewrite items_log, (set_initialized_lookup _ _ _ Hit). }
  assert (Hin2 : init_in s2 l) by by apply (init_in_evolves s1).
  split.
  - intros l' it' Hit'.
    destruct (ev_items _ _ H02 _ _ Hit') as (it2 & Hit2 & Hf & Hsame).
    destruct (decide (l' = l)) as [->|Hne].
    + rewrite (set_instance_lookup _ _ _ _ Hit2). eexists. split; [done|].
      split; [done|]. simplify_eq. congruence.
    + exists it2. simpl. by rewrite list_lookup_alter_ne.
  - intros l' it3 Hit3 Hi. destruct (decide (l' = l)) as [->|Hne].
    + destruct Hin2 as (it2 & Hit2 & Htrue).
      rewrite (set_instance_lookup _ _ _ _ Hit2) in Hit3. simplify_eq.
      simpl in Hi. congruence.
    + simpl in Hit3. rewrite list_lookup_alter_ne in Hit3 by done.
      by apply (ev_fresh _ _ H02).
  - destruct (ev_trace _ _ H12) as (new2 & Ht2 & Ho2).
    exists ([EvInit l; EvFactory l true p] ++ new2 ++ [EvStore l v]). split.
    { simpl. rewrite Ht2. simpl. by rewrite <- !app_assoc. }
    intros l'. destruct (Ho2 l') as (Hi2 & Hc2 & Hs2 & Htouch2).
    rewrite !count_app, !count_cons, !count_nil. unfold touches. simpl.
    pose proof (count_init_le l' new2). pose proof (count_call_le l' new2).
    pose proof (count_store_le l' new2).
    case_bool_decide as Hl; simpl.
    + subst l'.
      assert (count (touches l) new2 = 0) as Hz.
      { destruct (decide (0 < count (touches l) new2)) as [T|T]; [|lia].
        exfalso. destruct (Htouch2 T) as [Hun _]. by apply (not_both s1 l). }
      repeat split; try lia.
      * intros it0 Hit0. by simplify_eq.
      * destruct Hin2 as (it2 & Hit2 & Htrue). eexists.
        by rewrite (set_instance_lookup _ _ _ _ Hit2).
    + repeat split; try lia.
      all: assert (0 < count (touches l') new2) as T2 by (unfold touches; lia).
      all: destruct (Htouch2 T2) as [Hun (it2 & Hit2 & Htrue)].
      * by apply (uninit_in_evolves s s1).
      * exists it2. simpl. by rewrite list_lookup_alter_ne.
Qed.

(** ** Every run is an evolution *)

Lemma sound_OutOfFuel s : sound OutOfFuel s.
Proof. intros s' H. done. Qed.

Lemma sound_Done v s s' : evolves s s' → sound (Done v s') s.
Proof. intros H s'' Hf. simpl in Hf. by simplify_eq. Qed.

Lemma sound_Raised e s s' : evolves s s' → sound (Raised e s') s.
Proof. intros H s'' Hf. simpl in Hf. by simplify_eq. Qed.

Lemma sound_step r s s1 : evolves s s1 → sound r s1 → sound r s.
Proof. intros H Hr s' Hf. eapply evolves_trans; [done|]. by apply Hr. Qed.

Lemma sound_bind r k s :
  sound r s → (∀ v s1, r = Done v s1 → sound (k v s1) s1) → sound (bind r k) s.
Proof.
  intros Hr Hk. destruct r as [v s1|e s1|]; simpl.
  - apply (sound_step _ _ s1); [by apply Hr | by apply Hk].
  - done.
  - done.
Qed.

Lemma sound_define_on_receiver R P V s : sound (define_on_receiver R P V s) s.
Proof. destruct R; simpl; apply sound_Done; auto with heap. Qed.

Lemma sound_handler_get get_ Get_ K P R s :
  (∀ o s, sound (get_ K o s) s) → (∀ O P R s, sound (Get_ O P R s) s) →
  sound (handler_get get_ Get_ K P R s) s.
Proof.
  intros Hget HGet. unfold handler_get. apply sound_bind; [done|].
  intros target s1 _. destruct (negb _).
  - apply sound_Raised, evolves_refl.
  - unfold Reflect_get. destruct (is_Object target); [done|].
    apply sound_Raised, evolves_refl.
Qed.

Lemma sound_handler_set get_ Set_ K P V R s :
  (∀ o s, sound (get_ K o s) s) → (∀ O P V R s, sound (Set_ O P V R s) s) →
  sound (handler_set get_ Set_ K P V R s) s.
Proof.
  intros Hget HSet. unfold handler_set. apply sound_bind; [done|].
  intros target s1 _. destruct (negb _).
  - apply sound_Raised, evolves_refl.
  - unfold Reflect_set. destruct (is_Object target); [done|].
    apply sound_Raised, evolves_refl.
Qed.

(** [get], one level unfolded. *)
Lemma get_S n K options s :
  get (S n) K options s =
    match lookup K s with
    | inr e => Raised e s
    | inl (l, storeItem) =>
        if negb (default true (singleton options)) then
          run n (factory storeItem (params options))
              (log (EvFactory l false (params options)) s)
        else if initialized storeItem then
          if truthy (instance storeItem) then Done (instance storeItem) s
          else Done (VProxy (length (objs s)) K)
                    (log (EvDeferred K (length (objs s))) (alloc [] s))
        else
          let* v := run n (factory storeItem (params options))
                        (log (EvFactory l true (params options))
                             (set_initialized l s)) in
          λ s2, Done v (set_instance l v s2)
    end.
Proof. reflexivity. Qed.

Lemma sound_get_S n K options s :
  (∀ p s, sound (run n p s) s) → sound (get (S n) K options s) s.
Proof.
  intros IH. rewrite get_S.
  destruct (lookup K s) as [[l it]|e] eqn:Hl; [|apply sound_Raised, evolves_refl].
  apply lookup_inl in Hl as [Hreg Hit].
  destruct (negb _).
  { eapply sound_step; [|apply IH]. by apply evolves_log. }
  destruct (initialized it) eqn:Hi.
  { destruct (truthy _).
    - apply sound_Done, evolves_refl.
    - apply sound_Done. eapply evolves_trans; [apply evolves_alloc|].
      by apply evolves_log. }
  specialize (IH (factory it (params options))
                 (log (EvFactory l true (params options)) (set_initialized l s))).
  destruct (run n _ _) as [v s2|e s2|]; simpl.
  - apply sound_Done. eapply evolves_construct; [done|done|]. by apply IH.
  - apply sound_Raised. eapply evolves_trans; [by eapply evolves_begin|].
    by apply IH.
  - apply sound_OutOfFuel.
Qed.

Lemma interp_sound n :
  (∀ p s, sound (run n p s) s) ∧
  (∀ K o s, sound (get n K o s) s) ∧
  (∀ O P R s, sound (JS_Get n O P R s) s) ∧
  (∀ O P V R s, sound (JS_Set n O P V R s) s).
Proof.
  induction n as [|n (IHrun & IHget & IHGet & IHSet)].
  { split; [|split; [|split]]; intros; apply sound_OutOfFuel. }
  split; [|split; [|split]].
  - intros p s. destruct p; simpl.
    + apply sound_Done, evolves_refl.
    + apply sound_Raised, evolves_refl.
    + apply sound_bind; [apply IHget | intros; apply IHrun].
    + eapply sound_step; [apply evolves_add | apply IHrun].
    + eapply sound_step; [apply evolves_alloc | apply IHrun].
    + eapply sound_step; [apply evolves_alloc | apply IHrun].
    + destruct o; try (apply sound_Raised, evolves_refl);
        (apply sound_bind; [apply IHGet | intros; apply IHrun]).
    + destruct o; try (apply sound_Raised, evolves_refl);
        (apply sound_bind; [apply IHSet |]); intros ok s1 _;
        destruct ok as [| |[]| | | | |];
        first [apply IHrun | apply sound_Raised, evolves_refl].
    + pose proof (IHrun p s) as Hb.
      destruct (run n p s) as [v s1|e s1|]; [| |apply sound_OutOfFuel].
      * eapply sound_step; [by apply Hb | apply IHrun].
      * eapply sound_step; [by apply Hb |].
        apply sound_bind; [apply IHrun | intros; apply IHrun].
  - intros K o s. by apply sound_get_S.
  - intros O P R s. destruct O; simpl;
      try (apply sound_Done, evolves_refl).
    apply sound_handler_get; [intros; apply IHget | done].
  - intros O P V R s. destruct O; simpl;
      try (apply sound_Done, evolves_refl);
      try apply sound_define_on_receiver.
    apply sound_handler_set; [intros; apply IHget | done].
Qed.

(** ** More fuel never changes an answer *)

Lemma bind_more r r' k k' :
  (r ≠ OutOfFuel → r' = r) →
  (∀ v s, k v s ≠ OutOfFuel → k' v s = k v s) →
  bind r k ≠ OutOfFuel → bind r' k' = bind r k.
Proof.
  intros Hr Hk Hb. destruct r as [v s|e s|]; [| |done].
  - rewrite Hr by done. simpl in *. by apply Hk.
  - by rewrite Hr.
Qed.

Lemma handler_get_more get_ get' Get_ Get' K P R s :
  (∀ o s, get_ K o s ≠ OutOfFuel → get' K o s = get_ K o s) →
  (∀ O P R s, Get_ O P R s ≠ OutOfFuel → Get' O P R s = Get_ O P R s) →
  handler_get get_ Get_ K P R s ≠ OutOfFuel →
  handler_get get' Get' K P R s = handler_get get_ Get_ K P R s.
Proof.
  intros Hget HGet. unfold handler_get. apply bind_more; [apply Hget|].
  intros target s1. destruct (negb _); [done|].
  unfold Reflect_get. destruct (is_Object target); [apply HGet | done].
Qed.

Lemma handler_set_more get_ get' Set_ Set' K P V R s :
  (∀ o s, get_ K o s ≠ OutOfFuel → get' K o s = get_ K o s) →
  (∀ O P V R s, Set_ O P V R s ≠ OutOfFuel → Set' O P V R s = Set_ O P V R s) →
  handler_set get_ Set_ K P V R s ≠ OutOfFuel →
  handler_set get' Set' K P V R s = handler_set get_ Set_ K P V R s.
Proof.
  intros Hget HSet. unfold handler_set. apply bind_more; [apply Hget|].
  intros target s1. destruct (negb _); [done|].
  unfold Reflect_set. destruct (is_Object target); [apply HSet | done].
Qed.

(** [run], one level unfolded. *)
Lemma run_S n p s :
  run (S n) p s =
    match p with
    | Ret v => Done v s
    | Throw e => Raised e s
    | Resolve K options k => let* v := get n K options s in run n (k v)
    | Provide f key token k => run n k (add f key token s)
    | NewObj fields k => run n (k (VObj (length (objs s)))) (alloc fields s)
    | NewFun fields k => run n (k (VFun (length (objs s)))) (alloc fields s)
    | ReadProp o prop k =>
        match o with
        | VUndef | VNull =>
            Raised (TypeError "Cannot read properties of null or undefined") s
        | _ => let* v := JS_Get n o prop o s in run n (k v)
        end
    | WriteProp o prop val k =>
        match o with
        | VUndef | VNull =>
            Raised (TypeError "Cannot set properties of null or undefined") s
        | _ =>
            let* ok := JS_Set n o prop val o s in
            λ s', match ok with
                  | VBool false =>
                      Raised (TypeError "Cannot assign to property") s'
                  | _ => run n k s'
                  end
        end
    | Try body handler k =>
        match run n body s with
        | Done v s' => run n (k v) s'
        | Raised e s' => let* v := run n (handler e) s' in run n (k v)
        | OutOfFuel => OutOfFuel
        end
    end.
Proof. reflexivity. Qed.

Lemma one_more_unit n :
  (∀ p s, run n p s ≠ OutOfFuel → run (S n) p s = run n p s) ∧
  (∀ K o s, get n K o s ≠ OutOfFuel → get (S n) K o s = get n K o s) ∧
  (∀ O P R s, JS_Get n O P R s ≠ OutOfFuel →
              JS_Get (S n) O P R s = JS_Get n O P R s) ∧
  (∀ O P V R s, JS_Set n O P V R s ≠ OutOfFuel →
                JS_Set (S n) O P V R s = JS_Set n O P V R s).
Proof.
  induction n as [|n (IHrun & IHget & IHGet & IHSet)].
  { split; [|split; [|split]]; intros; done. }
  split; [|split; [|split]].
  - intros p s. rewrite (run_S (S n)), (run_S n). destruct p.
    + done.
    + done.
    + apply bind_more; [apply IHget | intros; by apply IHrun].
    + apply IHrun.
    + apply IHrun.
    + apply IHrun.
    + destruct o; try done.
      all: apply bind_more; [apply IHGet | intros; by apply IHrun].
    + destruct o; try done.
      all: apply bind_more; [apply IHSet|].
      all: intros ok s1; destruct ok as [| |[]| | | | |]; first [done | apply IHrun].
    + intros Hr.
      destruct (run n p s) as [v s1|e s1|] eqn:Hb; [| |done].
      * rewrite (IHrun p s) by (rewrite Hb; done). rewrite Hb. by apply IHrun.
      * rewrite (IHrun p s) by (rewrite Hb; done). rewrite Hb.
        revert Hr. apply bind_more; [apply IHrun | intros; by apply IHrun].
  - intros K o s. rewrite (get_S (S n)), (get_S n).
    destruct (lookup K s) as [[l it]|e]; [|done].
    destruct (negb _); [apply IHrun|].
    destruct (initialized it); [done|].
    apply bind_more; [apply IHrun | done].
  - intros O P R s. destruct O; try done.
    apply handler_get_more; [intros; by apply IHget | done].
  - intros O P V R s. destruct O; try done.
    apply handler_set_more; [intros; by apply IHget | done].
Qed.

(** An answer obtained with [n] units of fuel is the answer for every
    larger amount. *)
Lemma get_more_fuel n m K o s :
  n ≤ m → get n K o s ≠ OutOfFuel → get m K o s = get n K o s.
Proof.
  induction 1 as [|m _ IH]; [done|]. intros Hn.
  rewrite <- (IH Hn). apply one_more_unit. by rewrite (IH Hn).
Qed.

Lemma run_more_fuel n m p s :
  n ≤ m → run n p s ≠ OutOfFuel → run m p s = run n p s.
Proof.
  induction 1 as [|m _ IH]; [done|]. intros Hn.
  rewrite <- (IH Hn). apply one_more_unit. by rewrite (IH Hn).
Qed.

(** ** The four paths of [get] *)

Lemma on_singleton_path o : singleton o ≠ Some false → default true (singleton o) = true.
Proof. by destruct (singleton o) as [[]|]. Qed.

Lemma get_transient n K o s l it :
  lookup K s = inl (l, it) → singleton o = Some false →
  get (S n) K o s =
    run n (factory it (params o)) (log (EvFactory l false (params o)) s).
Proof. intros Hl Ho. by rewrite get_S, Hl, Ho. Qed.

Lemma get_memo n K o s l it :
  lookup K s = inl (l, it) → singleton o ≠ Some false →
  initialized it = true → truthy (instance it) = true →
  get (S n) K o s = Done (instance it) s.
Proof.
  intros Hl Ho Hi Ht. by rewrite get_S, Hl, (on_singleton_path _ Ho), Hi, Ht.
Qed.

Lemma get_deferred n K o s l it :
  lookup K s = inl (l, it) → singleton o ≠ Some false →
  initialized it = true → truthy (instance it) = false →
  get (S n) K o s =
    Done (VProxy (length (objs s)) K)
         (log (EvDeferred K (length (objs s))) (alloc [] s)).
Proof.
  intros Hl Ho Hi Ht. by rewrite get_S, Hl, (on_singleton_path _ Ho), Hi, Ht.
Qed.

Lemma get_construct n K o s l it :
  lookup K s = inl (l, it) → singleton o ≠ Some false →
  initialized it = false →
  get (S n) K o s =
    let* v := run n (factory it (params o))
                  (log (EvFactory l true (params o)) (set_initialized l s)) in
    λ s2, Done v (set_instance l v s2).
Proof.
  intros Hl Ho Hi. by rewrite get_S, Hl, (on_singleton_path _ Ho), Hi.
Qed.

Lemma run_evolves n p s s' : final (run n p s) = Some s' → evolves s s'.
Proof. apply (interp_sound n). Qed.

Lemma initialized_stays s s' l it :
  evolves s s' → items s !! l = Some it → initialized it = true →
  items s' !! l = Some it.
Proof.
  intros Hev Hit Hi. destruct (ev_items _ _ Hev _ _ Hit) as (it' & Hit' & _ & Hs).
  by rewrite Hit', (Hs Hi).
Qed.

Lemma untouched_after_init s s' l new :
  init_in s l → once s s' new → count (touches l) new = 0.
Proof.
  intros Hin Ho. destruct (Ho l) as (_ & _ & _ & Ht).
  destruct (decide (0 < count (touches l) new)) as [T|T]; [|lia].
  exfalso. destruct (Ht T) as [Hun _]. by apply (not_both s l).
Qed.

(** What a successful construction leaves behind. *)
Lemma construct_result n K o s l it v s1 :
  lookup K s = inl (l, it) → singleton o ≠ Some false →
  initialized it = false → get (S n) K o s = Done v s1 →
  evolves s s1 ∧
  items s1 !! l = Some {| initialized := true; factory := factory it; instance := v |} ∧
  ∃ new, trace s1 = trace s ++ new ∧ count (is_call l) new = 1.
Proof.
  intros Hl Ho Hi Hget. pose proof Hl as Hl'. apply lookup_inl in Hl' as [Hreg Hit].
  rewrite (get_construct _ _ _ _ _ _ Hl Ho Hi) in Hget.
  set (s0 := log _ (set_initialized l s)) in Hget.
  destruct (run n _ s0) as [v' s2|e s2|] eqn:Hrun; simpl in Hget; simplify_eq.
  assert (H02 : evolves s0 s2) by (eapply run_evolves; by rewrite Hrun).
  assert (Hit0 : items s0 !! l = Some {| initialized := true; factory := factory it;
                                         instance := instance it |}).
  { unfold s0. by rewrite items_log, (set_initialized_lookup _ _ _ Hit). }
  split; [by eapply evolves_construct|]. split.
  - rewrite (set_instance_lookup _ _ _ _ (initialized_stays _ _ _ _ H02 Hit0 eq_refl)).
    done.
  - destruct (ev_trace _ _ H02) as (new2 & Ht2 & Ho2).
    exists ([EvInit l; EvFactory l true (params o)] ++ new2 ++ [EvStore l v]). split.
    { simpl. rewrite Ht2. simpl. by rewrite <- !app_assoc. }
    assert (count (touches l) new2 = 0) as Hz.
    { eapply untouched_after_init; [|done]. by eexists. }
    pose proof (count_call_le l new2).
    rewrite !count_app, !count_cons, !count_nil. simpl.
    rewrite bool_decide_eq_true_2 by done. lia.
Qed.

(** ** Unregistered identifiers *)

(** C7. [get] on an identifier with no registry entry fails with
    "<identifier> is not registered": a token is named by its description
    (through [find]), any other key by its string form; the state after the
    failure is the state before it. *)
Theorem get_unregistered (n : nat) (K : Key) (options : GetOptions) (s : State) :
  _registry s !! K = None →
  ∃ message,
    get (S n) K options s = Raised (Error message) s ∧
    names message (toString K) ∧
    message = match K with
              | InjectionToken _ d => "Token " +:+ d +:+ " is not registered"
              | Constructor _ src => src +:+ " is not registered"
              end ∧
    (∀ d, find d K s = inr (Error ("Token " +:+ d +:+ " is not registered"))).
Proof.
  intros Hnone. eexists. split; [|split; [|split; [reflexivity|]]].
  - by rewrite get_S, (lookup_unregistered _ _ Hnone).
  - destruct K as [i src|i d]; simpl.
    + by exists EmptyString, " is not registered".
    + by exists "Token ", " is not registered".
  - intros d. unfold find, registry_get. by rewrite Hnone.
Qed.

Lemma get_unregistered_witness :
  let s := add Example.plain Example.A (Some Example.MY_TOKEN) new_Injector in
  get 1 Example.OTHER default_options s
    = Raised (Error "Token MyToken is not registered") s.
Proof.
  intros s.
  destruct (get_unregistered 0 Example.OTHER default_options s)
    as (message & Hget & _ & Hmessage & _).
  - vm_compute. reflexivity.
  - rewrite Hget, Hmessage. reflexivity.
Defined.

(** ** Registration *)

Lemma add_key f key token s :
  _registry (add f key token s) !! key = Some (length (items s)).
Proof. simpl. apply lookup_insert_eq. Qed.

Lemma add_token f key tok s :
  _registry (add f key (Some tok) s) !! tok = Some (length (items s)).
Proof.
  simpl. destruct (decide (key = tok)) as [->|Hne].
  - apply lookup_insert_eq.
  - rewrite lookup_insert_ne by done. apply lookup_insert_eq.
Qed.

Lemma add_other f key token s k :
  k ≠ key → token ≠ Some k →
  _registry (add f key token s) !! k = _registry s !! k.
Proof.
  intros Hk Ht. simpl. rewrite lookup_insert_ne by done.
  destruct token as [t|]; [|done]. rewrite lookup_insert_ne; [done|congruence].
Qed.

Lemma add_new_item f key token s :
  items (add f key token s) !! length (items s) =
    Some {| initialized := false; factory := f; instance := VNull |}.
Proof. simpl. by rewrite lookup_app_r, Nat.sub_diag. Qed.

Lemma add_old_item f key token s l it :
  items s !! l = Some it → items (add f key token s) !! l = Some it.
Proof.
  intros H. simpl. rewrite lookup_app_l; [done|]. by eapply lookup_lt_Some.
Qed.

(** C9. Registering [key] again builds a fresh StoreItem and rebinds only
    [key] and the token passed with it.  A token [tok] that an earlier
    registration bound to the StoreItem at [old] still points there, and
    that StoreItem is unchanged: resolving [tok] runs the old factory and
    returns the old singleton. *)
Theorem add_again_leaves_token_stale
    (f : ServiceFactory) (key tok : Key) (token : option Key)
    (s : State) (old : loc) (it : StoreItem) :
  _registry s !! key = Some old → _registry s !! tok = Some old →
  items s !! old = Some it →
  tok ≠ key → token ≠ Some tok →
  let s' := add f key token s in
  let new := length (items s) in
  new ≠ old ∧
  _registry s' !! key = Some new ∧
  (∀ t, token = Some t → _registry s' !! t = Some new) ∧
  items s' !! new = Some {| initialized := false; factory := f; instance := VNull |} ∧
  (∀ k, k ≠ key → token ≠ Some k → _registry s' !! k = _registry s !! k) ∧
  (∀ l it0, items s !! l = Some it0 → items s' !! l = Some it0) ∧
  lookup tok s' = inl (old, it) ∧
  (∀ n p, get (S n) tok {| singleton := Some false; params := p |} s' =
          run n (factory it p) (log (EvFactory old false p) s')) ∧
  (initialized it = true → truthy (instance it) = true →
   ∀ n, get (S n) tok default_options s' = Done (instance it) s').
Proof.
  intros Hkey Htok Hit Hne Htoken s' new.
  assert (Hl : lookup tok s' = inl (old, it)).
  { apply lookup_inl. split.
    - unfold s'. by rewrite add_other.
    - by apply add_old_item. }
  split; [|split; [|split; [|split; [|split; [|split; [|split; [|split]]]]]]].
  - apply lookup_lt_Some in Hit. unfold new. lia.
  - apply add_key.
  - intros t ->. apply add_token.
  - apply add_new_item.
  - intros k Hk Ht. by apply add_other.
  - intros l it0. apply add_old_item.
  - exact Hl.
  - intros n p. by rewrite (get_transient _ _ _ _ _ _ Hl).
  - intros Hi Ht n. by rewrite (get_memo _ _ _ _ _ _ Hl).
Qed.

Lemma add_again_leaves_token_stale_witness :
  let s := add Example.plain Example.A (Some Example.MY_TOKEN) new_Injector in
  let s' := add Example.returns_function Example.A None s in
  _registry s' !! Example.A = Some 1 ∧
  _registry s' !! Example.MY_TOKEN = Some 0 ∧
  items s' !! 0 =
    Some {| initialized := false; factory := Example.plain; instance := VNull |}.
Proof.
  intros s s'.
  destruct (add_again_leaves_token_stale Example.returns_function
              Example.A Example.MY_TOKEN None s 0
              {| initialized := false; factory := Example.plain; instance := VNull |})
    as (_ & Hkey & _ & _ & _ & _ & Hl & _).
  - reflexivity.
  - reflexivity.
  - reflexivity.
  - discriminate.
  - discriminate.
  - apply lookup_inl in Hl as [Hreg Hit]. split; [exact Hkey|]. split; assumption.
Defined.




(** ** The life of a StoreItem *)

(** C6. A StoreItem is created by [add] with its factory, [initialized =
    false] and an empty slot.  Across any run of client code, re-entrant
    calls included: every existing StoreItem keeps its factory; one that is
    initialized stays initialized and its slot is not written again; a
    StoreItem that is still not initialized at the end is unchanged or new
    and empty; and, in the events of the run, each StoreItem has its flag
    set at most once and its slot assigned at most once, neither of them
    if it was initialized when the run began. *)
Theorem StoreItem_lifecycle (n : nat) (p : prog) (s s' : State) :
  final (run n p s) = Some s' →
  (∀ f key token s0,
     items (add f key token s0) !! length (items s0) =
       Some {| initialized := false; factory := f; instance := VNull |}) ∧
  (∀ l it, items s !! l = Some it →
     ∃ it', items s' !! l = Some it' ∧ factory it' = factory it ∧
            (initialized it = true →
             initialized it' = true ∧ instance it' = instance it)) ∧
  (∀ l it', items s' !! l = Some it' → initialized it' = false →
     items s !! l = Some it' ∨ (items s !! l = None ∧ instance it' = VNull)) ∧
  ∃ new, trace s' = trace s ++ new ∧
    ∀ l, count (is_init l) new ≤ 1 ∧
         count (is_store l) new ≤ 1 ∧
         (init_in s l → count (is_init l) new = 0 ∧ count (is_store l) new = 0) ∧
         (0 < count (is_init l) new + count (is_store l) new → init_in s' l).
Proof.
  intros Hrun. apply run_evolves in Hrun as Hev.
  split; [intros; apply add_new_item|]. split; [|split].
  - intros l it Hit. destruct (ev_items _ _ Hev _ _ Hit) as (it' & Hit' & Hf & Hs).
    exists it'. split; [done|]. split; [done|]. intros Hi.
    rewrite (Hs Hi). done.
  - apply (ev_fresh _ _ Hev).
  - destruct (ev_trace _ _ Hev) as (new & Ht & Ho). exists new. split; [done|].
    intros l. destruct (Ho l) as (Hi & _ & Hs & Htouch).
    pose proof (count_init_le l new). pose proof (count_store_le l new).
    split; [done|]. split; [done|]. split.
    + intros Hin. pose proof (untouched_after_init _ _ _ _ Hin Ho). lia.
    + intros Hpos. apply Htouch. lia.
Qed.

Lemma StoreItem_lifecycle_witness :
  ∃ s', final (run 12 Example.wire_and_resolve new_Injector) = Some s' ∧
        ∀ l, count (is_init l) (trace s') ≤ 1 ∧ count (is_store l) (trace s') ≤ 1.
Proof.
  assert (H : final (run 12 Example.wire_and_resolve new_Injector)
              = Some Example.cyclic_resolved) by (vm_compute; reflexivity).
  exists Example.cyclic_resolved. split; [exact H|].
  destruct (StoreItem_lifecycle 12 _ new_Injector _ H)
    as (_ & _ & _ & new & Ht & Hnew).
  intros l. destruct (Hnew l) as (Hi & Hs & _).
  simpl in Ht. rewrite Ht. split; assumption.
Defined.

(** ** Memoisation *)

(** C3, as the code has it.  Let the first resolve of [X] on the singleton
    path find its StoreItem not initialized, complete normally and return a
    truthy value [v] (every object is truthy).  Then the slot holds [v], the
    factory has been called once, and after any further client code that
    leaves [X] bound to the same StoreItem every resolve of [X] on the
    singleton path returns [v] without changing the state, so without
    calling a factory: the number of singleton calls of the factory
    stays one. *)
Theorem singleton_memoised
    (n : nat) (X : Key) (options : GetOptions) (s s1 : State)
    (l : loc) (it : StoreItem) (v : value) :
  lookup X s = inl (l, it) → singleton options ≠ Some false →
  initialized it = false →
  get n X options s = Done v s1 → truthy v = true →
  items s1 !! l =
    Some {| initialized := true; factory := factory it; instance := v |} ∧
  ∀ m q s2, final (run m q s1) = Some s2 → _registry s2 !! X = Some l →
    (∀ j options', singleton options' ≠ Some false →
       get (S j) X options' s2 = Done v s2) ∧
    ∃ new, trace s2 = trace s ++ new ∧ count (is_call l) new = 1.
Proof.
  intros Hl Ho Hi Hget Hv. destruct n as [|n]; [done|].
  destruct (construct_result _ _ _ _ _ _ _ _ Hl Ho Hi Hget)
    as (Hev & Hit1 & new1 & Ht1 & Hc1).
  split; [done|]. intros m q s2 Hrun Hreg.
  apply run_evolves in Hrun as Hev2.
  pose proof (initialized_stays _ _ _ _ Hev2 Hit1 eq_refl) as Hit2.
  split.
  - intros j options' Ho'.
    rewrite (get_memo j X options' s2 l _ (proj2 (lookup_inl _ _ _ _) (conj Hreg Hit2)));
      done.
  - destruct (ev_trace _ _ Hev2) as (new2 & Ht2 & Ho2).
    exists (new1 ++ new2). split; [by rewrite Ht2, Ht1, app_assoc|].
    assert (count (touches l) new2 = 0) as Hz.
    { eapply untouched_after_init; [|done]. by eexists. }
    pose proof (count_call_le l new2). rewrite count_app. lia.
Qed.

Lemma singleton_memoised_witness :
  let s := add Example.plain Example.A None new_Injector in
  ∃ v s1, get 3 Example.A default_options s = Done v s1 ∧
          get 1 Example.A default_options s1 = Done v s1.
Proof.
  intros s. exists (VObj 0). eexists. split; [reflexivity|].
  refine (proj1 (proj2 (singleton_memoised 3 Example.A default_options s _ 0
            {| initialized := false; factory := Example.plain; instance := VNull |}
            (VObj 0) _ _ _ _ _) 1 (Ret VUndef) _ _ _) 0 default_options _).
  all: try reflexivity; discriminate.
Defined.

(** C3 as stated fails when the factory returns a falsy value: the first
    resolve completes normally and returns it, the slot then counts as
    empty, and the next resolve returns a deferred reference. *)
Lemma falsy_result_is_not_memoised :
  let first f := get 2 Example.A default_options
                     (add f Example.A None new_Injector) in
  let second f := s1 ← final (first f);
                  answer (get 2 Example.A default_options s1) in
  answer (first Example.returns_empty_string) = Some (inl (VStr EmptyString)) ∧
  second Example.returns_empty_string = Some (inl (VProxy 0 Example.A)) ∧
  answer (first Example.returns_null) = Some (inl VNull) ∧
  second Example.returns_null = Some (inl (VProxy 0 Example.A)).
Proof. repeat split; vm_compute; reflexivity. Qed.

(** ** A factory that throws *)

(** C10. If the first singleton resolve of [K] finds the StoreItem not
    initialized and fails with [e], then [e] is what the factory raised,
    and the failure leaves the StoreItem with [initialized = true] and its
    slot as empty as before.  From then on, whatever client code runs in
    between, as long as [K] is still bound to that StoreItem every resolve
    of [K] on the singleton path returns a fresh deferred reference and
    calls no factory. *)
Theorem factory_error_is_not_rolled_back
    (n : nat) (K : Key) (options : GetOptions) (s s2 : State)
    (l : loc) (it : StoreItem) (e : error) :
  lookup K s = inl (l, it) → singleton options ≠ Some false →
  initialized it = false → truthy (instance it) = false →
  get (S n) K options s = Raised e s2 →
  run n (factory it (params options))
      (log (EvFactory l true (params options)) (set_initialized l s))
    = Raised e s2 ∧
  items s2 !! l =
    Some {| initialized := true; factory := factory it; instance := instance it |} ∧
  ∀ m q s3, final (run m q s2) = Some s3 → _registry s3 !! K = Some l →
    ∀ j options', singleton options' ≠ Some false →
      get (S j) K options' s3 =
        Done (VProxy (length (objs s3)) K)
             (log (EvDeferred K (length (objs s3))) (alloc [] s3)).
Proof.
  intros Hl Ho Hi Hempty Hget. pose proof Hl as Hl'.
  apply lookup_inl in Hl' as [Hreg Hit].
  rewrite (get_construct _ _ _ _ _ _ Hl Ho Hi) in Hget.
  set (s0 := log _ (set_initialized l s)) in *.
  destruct (run n _ s0) as [v' s2'|e' s2'|] eqn:Hrun; simpl in Hget; simplify_eq.
  split; [done|].
  assert (H02 : evolves s0 s2) by (eapply run_evolves; by rewrite Hrun).
  assert (Hit0 : items s0 !! l = Some {| initialized := true; factory := factory it;
                                         instance := instance it |}).
  { unfold s0. by rewrite items_log, (set_initialized_lookup _ _ _ Hit). }
  pose proof (initialized_stays _ _ _ _ H02 Hit0 eq_refl) as Hit2.
  split; [done|]. intros m q s3 Hq Hreg3 j options' Ho'.
  apply run_evolves in Hq.
  pose proof (initialized_stays _ _ _ _ Hq Hit2 eq_refl) as Hit3.
  by rewrite (get_deferred j K options' s3 l _
                (proj2 (lookup_inl _ _ _ _) (conj Hreg3 Hit3))).
Qed.

Lemma factory_error_is_not_rolled_back_witness :
  let s := add Example.throws Example.A None new_Injector in
  ∃ s2, get 2 Example.A default_options s = Raised (Thrown (VStr "boom")) s2 ∧
        get 1 Example.A default_options s2 =
          Done (VProxy 0 Example.A) (log (EvDeferred Example.A 0) (alloc [] s2)).
Proof.
  intros s. eexists. split; [reflexivity|].
  refine (proj2 (proj2 (factory_error_is_not_rolled_back 1 Example.A default_options
            s _ 0 {| initialized := false; factory := Example.throws; instance := VNull |}
            (Thrown (VStr "boom")) _ _ _ _ _)) 1 (Ret VUndef) _ _ _ 0 default_options _).
  all: try reflexivity; discriminate.
Defined.

(** ** Constructor bodies *)

Lemma run_Ret n v s : run (S n) (Ret v) s = Done v s.
Proof. reflexivity. Qed.

Lemma run_Resolve n K o k s :
  run (S n) (Resolve K o k) s = let* v := get n K o s in run n (k v).
Proof. reflexivity. Qed.

Lemma builds_constructs p : builds p → constructs p.
Proof.
  induction 1 as [v|fields k _ IH|fields k _ IH]; intros s.
  - exists 1, v, s. split; [|done]. intros [|n] Hn; [lia|done].
  - destruct (IH (VObj (length (objs s))) (alloc fields s))
      as (d & v & s' & Hrun & Hreg & Hit & Htr).
    exists (S d), v, s'. split; [|done].
    intros [|n] Hn; [lia|]. simpl. apply Hrun. lia.
  - destruct (IH (VFun (length (objs s))) (alloc fields s))
      as (d & v & s' & Hrun & Hreg & Hit & Htr).
    exists (S d), v, s'. split; [|done].
    intros [|n] Hn; [lia|]. simpl. apply Hrun. lia.
Qed.

(** ** Deferred references *)

Lemma JS_Get_proxy n d K P R s :
  JS_Get (S n) (VProxy d K) P R s = handler_get (get n) (JS_Get n) K P R s.
Proof. reflexivity. Qed.

Lemma JS_Set_proxy n d K P V R s :
  JS_Set (S n) (VProxy d K) P V R s = handler_set (get n) (JS_Set n) K P V R s.
Proof. reflexivity. Qed.

Lemma typeof_check v :
  negb (String.eqb (typeof v) "object") = true ↔ typeof v ≠ "object".
Proof. rewrite negb_true_iff. apply String.eqb_neq. Qed.

Lemma typeof_check_pass v :
  typeof v = "object" → negb (String.eqb (typeof v) "object") = false.
Proof. intros ->. reflexivity. Qed.

(** While the slot of [K]'s StoreItem is empty, an access through a
    deferred reference for [K] resolves to another deferred reference, and
    so on: no amount of fuel lets it return (an engine ends such a descent
    when its call stack is full). *)
Lemma deferred_reference_spins n :
  ∀ d K P V R s l it,
    lookup K s = inl (l, it) → initialized it = true →
    truthy (instance it) = false →
    JS_Get n (VProxy d K) P R s = OutOfFuel ∧
    JS_Set n (VProxy d K) P V R s = OutOfFuel.
Proof.
  induction n as [|n IH]; intros d K P V R s l it Hl Hi Ht; [done|].
  rewrite JS_Get_proxy, JS_Set_proxy. unfold handler_get, handler_set.
  destruct n as [|n]; [done|].
  rewrite (get_deferred _ _ _ _ _ _ Hl) by done. simpl bind.
  unfold Reflect_get, Reflect_set. cbn [is_Object].
  rewrite <- (JS_Get_proxy n 0), <- (JS_Set_proxy n 0).
  by apply IH with (l := l) (it := it).
Qed.

(** C8, as the code has it.  A read or write on a deferred reference for
    [K] first resolves [K] with default options.  When that returns
    [target] and [typeof target] is not ["object"], which is the case for a
    function as well as for a primitive, the handler raises
    "DI: instance of K not found", a message that names [K].  When
    [typeof target] is ["object"] the handler hands the operation to
    [Reflect.get] or [Reflect.set] on [target], and a read of an ordinary
    object yields that object's property. *)
Theorem deferred_reference_access (d : loc) (K : Key) (P : string) (V R : value) :
  (∀ n s target s1,
     get n K default_options s = Done target s1 →
     (typeof target ≠ "object" →
        JS_Get (S n) (VProxy d K) P R s = Raised (instance_not_found K) s1 ∧
        JS_Set (S n) (VProxy d K) P V R s = Raised (instance_not_found K) s1) ∧
     (typeof target = "object" →
        JS_Get (S n) (VProxy d K) P R s = Reflect_get (JS_Get n) target P R s1 ∧
        JS_Set (S n) (VProxy d K) P V R s = Reflect_set (JS_Set n) target P V R s1) ∧
     (∀ l, target = VObj l →
        JS_Get (S n) (VProxy d K) P R s = Done (field l P s1) s1)) ∧
  (∀ v, match v with
        | VUndef | VBool _ | VNum _ | VStr _ | VFun _ => True
        | _ => False
        end → typeof v ≠ "object") ∧
  (∀ l, typeof (VObj l) = "object") ∧
  names (match instance_not_found K with
         | Error m | TypeError m => m
         | Thrown _ => EmptyString
         end) (toString K).
Proof.
  split; [|split; [|split]].
  - intros n s target s1 Hget.
    rewrite JS_Get_proxy, JS_Set_proxy. unfold handler_get, handler_set.
    rewrite Hget. simpl bind.
    split; [|split].
    + intros Hty. apply typeof_check in Hty. by rewrite Hty.
    + intros Hty. by rewrite (typeof_check_pass _ Hty).
    + intros l ->. simpl. destruct n as [|n]; [done|]. reflexivity.
  - intros v. by destruct v.
  - done.
  - by exists "DI: instance of ", " not found".
Qed.

Lemma run_ReadProp_proxy n d K P k s :
  run (S n) (ReadProp (VProxy d K) P k) s =
    let* v := JS_Get n (VProxy d K) P (VProxy d K) s in run n (k v).
Proof. reflexivity. Qed.

Lemma deferred_reference_access_witness :
  JS_Get 2 Example.ref_to_A "b" Example.ref_to_A Example.cyclic_resolved
    = Done (VObj 1) Example.cyclic_resolved.
Proof.
  destruct (deferred_reference_access 0 Example.A "b" VUndef Example.ref_to_A)
    as (Hcases & _).
  destruct (Hcases 1 Example.cyclic_resolved (VObj 2) Example.cyclic_resolved)
    as (_ & _ & Hobj).
  - vm_compute. reflexivity.
  - exact (Hobj 2 eq_refl).
Defined.

(** C8 as stated fails on a callable service: a function is an object,
    the resolve made by the handler returns it, and the access through the
    deferred reference raises InstanceNotFound all the same. *)
Lemma typeof_check_is_not_an_object_test :
  get 1 Example.A default_options Example.callable_resolved
    = Done (VFun 2) Example.callable_resolved ∧
  is_Object (VFun 2) = true ∧
  run 3 (ReadProp Example.ref_to_A "b" Ret) Example.callable_resolved
    = Raised (instance_not_found Example.A) Example.callable_resolved ∧
  run 3 (WriteProp Example.ref_to_A "b" VNull (Ret VUndef))
        Example.callable_resolved
    = Raised (instance_not_found Example.A) Example.callable_resolved.
Proof. repeat split; vm_compute; reflexivity. Qed.

(** A write through a deferred reference whose identifier resolves to an
    ordinary object is made on the reference's own target. *)
Lemma proxy_write_defines_on_proxy n d K P V s l s1 :
  get (S n) K default_options s = Done (VObj l) s1 →
  JS_Set (S (S n)) (VProxy d K) P V (VProxy d K) s =
    Done (VBool true) (define_field d P V s1).
Proof.
  intros Hget. rewrite JS_Set_proxy. unfold handler_set. by rewrite Hget.
Qed.

(** C2, where the code departs from it.  On the resolved cyclic
    container a write through the deferred reference to [A] resolves [A]
    and calls [Reflect.set] on the instance, but with the deferred reference
    as receiver: the property is defined on the reference's own target
    object, the instance of [A] does not get it, and reading it back
    through the reference yields [undefined]. *)
Theorem write_through_deferred_reference_stays_on_it :
  let r := run 4 (WriteProp Example.ref_to_A "x" (VNum 5)
                    (ReadProp Example.ref_to_A "x" Ret))
               Example.cyclic_resolved in
  instance <$> items Example.cyclic_resolved !! 0 = Some (VObj 2) ∧
  objs Example.cyclic_resolved !! 0 = Some ∅ ∧
  answer r = Some (inl VUndef) ∧
  field 0 "x" <$> final r = Some (VNum 5) ∧
  field 2 "x" <$> final r = Some VUndef ∧
  objs <$> final r =
    Some (<[0 := {["x" := VNum 5]}]> (objs Example.cyclic_resolved)).
Proof. repeat split; vm_compute; reflexivity. Qed.

(** ** Dependency cycles *)

(** C1. Let [A] and [B] be bound to two fresh StoreItems whose factories
    begin by resolving each other with default options and then only
    construct.  Then [get A] returns, for every sufficient amount of fuel,
    the value [vA] built by [A]'s factory.  The trace shows each factory
    called once: the re-entrant [get A] made by [B]'s factory found
    [initialized = true] with an empty slot and returned the deferred
    reference [VProxy d A], around which [B]'s instance was built. *)
Theorem cycle_resolves
    (A B : Key) (a b : loc) (contA contB : value → value → prog) (s : State) :
  let fA : ServiceFactory := λ p, Resolve B default_options (contA p) in
  let fB : ServiceFactory := λ p, Resolve A default_options (contB p) in
  a ≠ b →
  _registry s !! A = Some a → _registry s !! B = Some b →
  items s !! a = Some {| initialized := false; factory := fA; instance := VNull |} →
  items s !! b = Some {| initialized := false; factory := fB; instance := VNull |} →
  (∀ p dep, constructs (contA p dep)) →
  (∀ p dep, constructs (contB p dep)) →
  let d := length (objs s) in
  let s_mid := log (EvFactory b true VUndef)
                 (set_initialized b
                    (log (EvFactory a true VUndef) (set_initialized a s))) in
  let s_ref := log (EvDeferred A d) (alloc [] s_mid) in
  ∃ n vA vB s_B s_A,
    let s' := set_instance a vA s_A in
    (∀ m, n ≤ m → get m A default_options s = Done vA s') ∧
    items s' !! a = Some {| initialized := true; factory := fA; instance := vA |} ∧
    items s' !! b = Some {| initialized := true; factory := fB; instance := vB |} ∧
    trace s' = trace s ++
      [EvInit a; EvFactory a true VUndef; EvInit b; EvFactory b true VUndef;
       EvDeferred A d; EvStore b vB; EvStore a vA] ∧
    items s_mid !! a =
      Some {| initialized := true; factory := fA; instance := VNull |} ∧
    (∀ j, get (S j) A default_options s_mid = Done (VProxy d A) s_ref) ∧
    (∀ m, n ≤ m → run m (contB VUndef (VProxy d A)) s_ref = Done vB s_B) ∧
    (∀ m, n ≤ m → run m (contA VUndef vB) (set_instance b vB s_B) = Done vA s_A).
Proof.
  intros fA fB Hab HregA HregB HitA HitB HcA HcB d s_mid s_ref.
  set (itA := {| initialized := false; factory := fA; instance := VNull |}) in *.
  set (itB := {| initialized := false; factory := fB; instance := VNull |}) in *.
  set (s1 := log (EvFactory a true VUndef) (set_initialized a s)).
  (* the heap at each stage *)
  assert (HlA : lookup A s = inl (a, itA)) by by apply lookup_inl.
  assert (Hb1 : items s1 !! b = Some itB).
  { unfold s1, set_initialized, log, with_items. cbn [items].
    by rewrite list_lookup_alter_ne. }
  assert (Ha1 : items s1 !! a = Some {| initialized := true; factory := fA;
                                        instance := VNull |}).
  { unfold s1. by rewrite items_log, (set_initialized_lookup _ _ _ HitA). }
  assert (HlB : lookup B s1 = inl (b, itB)) by by apply lookup_inl.
  assert (Ha2 : items s_mid !! a = Some {| initialized := true; factory := fA;
                                           instance := VNull |}).
  { unfold s_mid. fold s1. unfold set_initialized, log, with_items. cbn [items].
    by rewrite list_lookup_alter_ne. }
  assert (Hb2 : items s_mid !! b = Some {| initialized := true; factory := fB;
                                           instance := VNull |}).
  { unfold s_mid. fold s1. by rewrite items_log, (set_initialized_lookup _ _ _ Hb1). }
  assert (HlA2 : lookup A s_mid = inl (a, {| initialized := true; factory := fA;
                                             instance := VNull |}))
    by by apply lookup_inl.
  assert (Hdef : ∀ j, get (S j) A default_options s_mid = Done (VProxy d A) s_ref).
  { intros j. by rewrite (get_deferred _ _ _ _ _ _ HlA2). }
  (* the two constructor bodies *)
  destruct (HcB VUndef (VProxy d A) s_ref)
    as (dB & vB & s4 & HrunB & Hreg4 & Hit4 & Htr4).
  set (s5 := set_instance b vB s4).
  destruct (HcA VUndef vB s5) as (dA & vA & s6 & HrunA & Hreg6 & Hit6 & Htr6).
  exists (dA + dB + 5), vA, vB, s4, s6. intros s7.
  assert (Hb4 : items s4 !! b = Some {| initialized := true; factory := fB;
                                        instance := VNull |})
    by (rewrite Hit4; exact Hb2).
  assert (Ha4 : items s4 !! a = Some {| initialized := true; factory := fA;
                                        instance := VNull |})
    by (rewrite Hit4; exact Ha2).
  assert (Hb5 : items s5 !! b = Some {| initialized := true; factory := fB;
                                        instance := vB |}).
  { unfold s5. by rewrite (set_instance_lookup _ _ _ _ Hb4). }
  assert (Ha5 : items s5 !! a = Some {| initialized := true; factory := fA;
                                        instance := VNull |}).
  { unfold s5, set_instance, log, with_items. cbn [items].
    by rewrite list_lookup_alter_ne. }
  rewrite <- Hit6 in Ha5, Hb5.
  split; [|split; [|split; [|split; [|split; [|split; [|split]]]]]].
  - intros m Hm.
    destruct m as [|[|[|[|[|m]]]]]; try lia.
    rewrite (get_construct _ _ _ _ _ _ HlA) by done.
    cbn [params default_options factory itA]. unfold fA at 1. fold s1.
    rewrite run_Resolve.
    rewrite (get_construct _ _ _ _ _ _ HlB) by done.
    cbn [params default_options factory itB]. unfold fB at 1. fold s_mid.
    rewrite run_Resolve, Hdef. cbn [bind].
    rewrite HrunB by lia. cbn [bind]. fold s5.
    rewrite HrunA by lia. cbn [bind]. done.
  - unfold s7. by rewrite (set_instance_lookup _ _ _ _ Ha5).
  - unfold s7, set_instance, log, with_items. cbn [items].
    by rewrite list_lookup_alter_ne.
  - unfold s7. cbn [trace set_instance log with_items]. rewrite Htr6.
    unfold s5. cbn [trace set_instance log with_items]. rewrite Htr4.
    unfold s_ref, s_mid. cbn [trace log alloc with_objs set_initialized with_items].
    by rewrite <- !app_assoc.
  - done.
  - done.
  - intros m Hm. apply HrunB. lia.
  - intros m Hm. fold s5. apply HrunA. lia.
Qed.

Lemma cycle_resolves_witness :
  ∃ n vA s',
    get n Example.A default_options Example.cyclic = Done vA s' ∧
    trace s' =
      [EvInit 0; EvFactory 0 true VUndef; EvInit 1; EvFactory 1 true VUndef;
       EvDeferred Example.A 0; EvStore 1 (VObj 1); EvStore 0 vA].
Proof.
  destruct (cycle_resolves Example.A Example.B 0 1
              (λ _ b, NewObj [("b", b)] Ret) (λ _ a, NewObj [("a", a)] Ret)
              Example.cyclic)
    as (n & vA & vB & s_B & s_A & Hget & _ & _ & Htrace & _ & _ & HB & _).
  - lia.
  - reflexivity.
  - reflexivity.
  - reflexivity.
  - reflexivity.
  - intros p dep. apply builds_constructs, builds_NewObj. intros v. apply builds_Ret.
  - intros p dep. apply builds_constructs, builds_NewObj. intros v. apply builds_Ret.
  - exists (n + 2), vA, (set_instance 0 vA s_A). split; [apply Hget; lia|].
    specialize (HB (n + 2) ltac:(lia)).
    replace (n + 2) with (S (S n)) in HB by lia. simpl in HB.
    injection HB as HvB _. rewrite Htrace, <- HvB. reflexivity.
Defined.

(** * Further properties of the container *)

(** ** Relations kept by every run *)

Section Preserved.
Variable R : State → State → Prop.
Hypothesis R_refl : ∀ s, R s s.
Hypothesis R_trans : ∀ s1 s2 s3, R s1 s2 → R s2 s3 → R s1 s3.
Hypothesis R_log : ∀ e s, R s (log e s).
Hypothesis R_init : ∀ l s, R s (set_initialized l s).
Hypothesis R_inst : ∀ l v s, R s (set_instance l v s).
Hypothesis R_objs : ∀ g s, R s (with_objs g s).
Hypothesis R_add : ∀ f key token s, R s (add f key token s).

Lemma respects_step r s s1 : R s s1 → respects R r s1 → respects R r s.
Proof. intros H Hr s' Hf. eapply R_trans; [done|]. by apply Hr. Qed.

Lemma respects_bind r k s :
  respects R r s → (∀ v s1, respects R (k v s1) s1) → respects R (bind r k) s.
Proof.
  intros Hr Hk. destruct r as [v s1|e s1|]; simpl; [|done|done].
  apply (respects_step _ _ s1); [by apply Hr | apply Hk].
Qed.

Lemma respects_final r s s1 : R s s1 → final r = Some s1 → respects R r s.
Proof. intros H Hf s' Hf'. congruence. Qed.

Lemma interp_respects n :
  (∀ p s, respects R (run n p s) s) ∧
  (∀ K o s, respects R (get n K o s) s) ∧
  (∀ O P Rc s, respects R (JS_Get n O P Rc s) s) ∧
  (∀ O P V Rc s, respects R (JS_Set n O P V Rc s) s).
Proof.
  induction n as [|n (IHrun & IHget & IHGet & IHSet)].
  { split; [|split; [|split]]; intros; intros s' Hf; done. }
  assert (Hhandler : ∀ (X : State → outcome) target s1,
            (is_Object target = true → respects R (X s1) s1) →
            ∀ e e',
            respects R (if negb (String.eqb (typeof target) "object")
                        then Raised e s1
                        else if is_Object target then X s1 else Raised e' s1) s1).
  { intros X target s1 HX e e'. destruct (negb _).
    - by apply (respects_final _ _ s1).
    - destruct (is_Object target); [by apply HX | by apply (respects_final _ _ s1)]. }
  split; [|split; [|split]].
  - intros p s. rewrite run_S. destruct p.
    + by apply (respects_final _ _ s).
    + by apply (respects_final _ _ s).
    + apply respects_bind; [apply IHget | intros; apply IHrun].
    + eapply respects_step; [apply R_add | apply IHrun].
    + eapply respects_step; [apply R_objs | apply IHrun].
    + eapply respects_step; [apply R_objs | apply IHrun].
    + destruct o; try (by apply (respects_final _ _ s));
        (apply respects_bind; [apply IHGet | intros; apply IHrun]).
    + destruct o; try (by apply (respects_final _ _ s));
        (apply respects_bind; [apply IHSet |]); intros ok s1;
        destruct ok as [| |[]| | | | |];
        first [apply IHrun | by apply (respects_final _ _ s1)].
    + pose proof (IHrun p s) as Hb.
      destruct (run n p s) as [v s1|e s1|]; [| |done].
      * eapply respects_step; [by apply Hb | apply IHrun].
      * eapply respects_step; [by apply Hb |].
        apply respects_bind; [apply IHrun | intros; apply IHrun].
  - intros K o s. rewrite get_S.
    destruct (lookup K s) as [[l it]|e]; [|by apply (respects_final _ _ s)].
    destruct (negb _).
    { eapply respects_step; [apply R_log | apply IHrun]. }
    destruct (initialized it).
    { destruct (truthy _); [by apply (respects_final _ _ s)|].
      eapply respects_final; [|done].
      eapply R_trans; [apply (R_objs (λ os, os ++ [list_to_map []]))|apply R_log]. }
    eapply respects_step.
    { eapply R_trans; [apply R_init | apply R_log]. }
    apply respects_bind; [apply IHrun|].
    intros v s2. eapply respects_final; [|done].
    apply R_inst.
  - intros O P Rc s. destruct O; simpl; try (by apply (respects_final _ _ s)).
    unfold handler_get. apply respects_bind; [apply IHget|].
    intros target s1. unfold Reflect_get. apply Hhandler. intros _. apply IHGet.
  - intros O P V Rc s. destruct O; simpl; try (by apply (respects_final _ _ s)).
    1,2: destruct Rc; simpl; first [by apply (respects_final _ _ s)
           | eapply respects_final; [apply R_objs | done]].
    unfold handler_set. apply respects_bind; [apply IHget|].
    intros target s1. unfold Reflect_set. apply Hhandler. intros _. apply IHSet.
Qed.

End Preserved.

(** ** Writes to a StoreItem are on record *)

Lemma logged_refl s : logged s s.
Proof. exists []. split; [by rewrite app_nil_r | done]. Qed.

Lemma logged_trans s1 s2 s3 : logged s1 s2 → logged s2 s3 → logged s1 s3.
Proof.
  intros (new1 & Ht1 & H1) (new2 & Ht2 & H2). exists (new1 ++ new2).
  split; [by rewrite Ht2, Ht1, app_assoc|].
  intros l it Hit. rewrite count_app. intros Hz.
  apply H2; [apply H1; [done|lia] | lia].
Qed.

Lemma logged_quiet s s' new :
  items s' = items s → trace s' = trace s ++ new → logged s s'.
Proof. intros Hit Htr. exists new. split; [done|]. intros l it. by rewrite Hit. Qed.

Lemma logged_set_initialized l s : logged s (set_initialized l s).
Proof.
  exists [EvInit l]. split; [done|]. intros l' it Hit.
  rewrite count_cons, count_nil. unfold touches. simpl.
  case_bool_decide; simpl; [lia|]. intros _.
  unfold set_initialized, log, with_items. cbn [items].
  by rewrite list_lookup_alter_ne.
Qed.

Lemma logged_set_instance l v s : logged s (set_instance l v s).
Proof.
  exists [EvStore l v]. split; [done|]. intros l' it Hit.
  rewrite count_cons, count_nil. unfold touches. simpl.
  case_bool_decide; simpl; [lia|]. intros _.
  unfold set_instance, log, with_items. cbn [items].
  by rewrite list_lookup_alter_ne.
Qed.

Lemma logged_add f key token s : logged s (add f key token s).
Proof.
  exists []. split; [simpl; by rewrite app_nil_r|].
  intros l it Hit _. by apply add_old_item.
Qed.

Lemma run_logged n p s s' : final (run n p s) = Some s' → logged s s'.
Proof.
  apply (interp_respects logged logged_refl logged_trans).
  - intros e s0. by apply (logged_quiet _ _ [e]).
  - apply logged_set_initialized.
  - apply logged_set_instance.
  - intros g s0. apply (logged_quiet _ _ []); [done | by rewrite app_nil_r].
  - apply logged_add.
Qed.

(** ** Transient resolution *)

(** C4, as the code has it.  With [singleton: false], [get] calls the
    factory with the given params and its outcome is the outcome of that
    run; [get] itself writes neither the flag nor the slot.  The StoreItem
    is left exactly as it was if and only if it was already initialized or
    the run records no event about it, that is, no resolve on the singleton
    path sets its flag while the factory runs; this is so in particular
    when the factory only constructs.  If it was not initialized and such
    an event is recorded, it ends initialized. *)
Theorem transient_get_runs_the_factory
    (n : nat) (X : Key) (p : value) (s : State) (l : loc) (it : StoreItem) :
  lookup X s = inl (l, it) →
  let options := {| singleton := Some false; params := p |} in
  get (S n) X options s = run n (factory it p) (log (EvFactory l false p) s) ∧
  (∀ s', final (get (S n) X options s) = Some s' →
     ∃ new, trace s' = trace s ++ EvFactory l false p :: new ∧
       (initialized it = true → items s' !! l = Some it) ∧
       (items s' !! l = Some it ↔
          initialized it = true ∨ count (touches l) new = 0) ∧
       (initialized it = false → 0 < count (touches l) new → init_in s' l)) ∧
  (constructs (factory it p) →
   ∃ d v s', (∀ m, d ≤ m → get (S m) X options s = Done v s') ∧
             items s' = items s ∧ _registry s' = _registry s).
Proof.
  intros Hl options.
  assert (Heq : ∀ m, get (S m) X options s =
                     run m (factory it p) (log (EvFactory l false p) s)).
  { intros m. by rewrite (get_transient _ _ _ _ _ _ Hl). }
  split; [apply Heq|]. split.
  - intros s' Hfin. rewrite Heq in Hfin. apply lookup_inl in Hl as [_ Hit].
    pose proof (run_evolves _ _ _ _ Hfin) as Hev.
    destruct (run_logged _ _ _ _ Hfin) as (new & Htr & Hlog).
    destruct (ev_trace _ _ Hev) as (new' & Htr' & Honce).
    assert (new' = new) as -> by (rewrite Htr in Htr'; by apply app_inv_head in Htr').
    exists new. split; [simpl in Htr; by rewrite Htr, <- app_assoc|].
    assert (Hkept : initialized it = true → items s' !! l = Some it).
    { intros Hi. by apply (initialized_stays _ _ _ _ Hev). }
    assert (Htouched : 0 < count (touches l) new → init_in s' l).
    { intros T. by destruct (Honce l) as (_ & _ & _ & [_ Hin]). }
    split; [done|]. split; [|by intros _].
    split.
    + intros Hsame. destruct (initialized it) eqn:Hi; [by left|]. right.
      destruct (decide (0 < count (touches l) new)) as [T|T]; [|lia].
      exfalso. destruct (Htouched T) as (it' & Hit' & Hi'). congruence.
    + intros [Hi|Hz]; [by apply Hkept | by apply Hlog].
  - intros Hc. destruct (Hc (log (EvFactory l false p) s))
      as (d & v & s' & Hrun & Hreg & Hit & _).
    exists d, v, s'. split; [|done]. intros m Hm. rewrite Heq. by apply Hrun.
Qed.

Lemma transient_get_runs_the_factory_witness :
  let s := add Example.plain Example.B None
             (add Example.fA Example.A None new_Injector) in
  ∃ s', final (get 6 Example.A Example.transient s) = Some s' ∧
        items s' !! 0 = items s !! 0.
Proof.
  intros s.
  set (s' := match final (get 6 Example.A Example.transient s) with
             | Some s' => s'
             | None => s
             end).
  assert (Hfin : final (get 6 Example.A Example.transient s) = Some s')
    by (vm_compute; reflexivity).
  exists s'. split; [exact Hfin|].
  destruct (transient_get_runs_the_factory 5 Example.A VUndef s 0
              {| initialized := false; factory := Example.fA; instance := VNull |})
    as (_ & Hframe & _); [reflexivity|].
  destruct (Hframe s' Hfin) as (new & Htr & _ & Hiff & _).
  transitivity (Some {| initialized := false; factory := Example.fA;
                        instance := VNull |}); [|reflexivity].
  apply Hiff. right.
  assert (Hc : trace s' = [EvFactory 0 false VUndef; EvInit 1;
                           EvFactory 1 true VUndef; EvStore 1 (VObj 0)])
    by (vm_compute; reflexivity).
  rewrite Hc in Htr. simpl in Htr. injection Htr as <-. reflexivity.
Defined.

(** C4 as stated fails on a dependency cycle: a transient resolve of [A]
    makes [B]'s factory resolve [A] on the singleton path, which
    initializes and populates [A]'s StoreItem. *)
Lemma transient_get_can_initialise_its_own_item :
  let r := get 10 Example.A Example.transient Example.cyclic in
  initialized <$> items Example.cyclic !! 0 = Some false ∧
  instance <$> items Example.cyclic !! 0 = Some VNull ∧
  answer r = Some (inl (VObj 3)) ∧
  (s' ← final r; initialized <$> items s' !! 0) = Some true ∧
  (s' ← final r; instance <$> items s' !! 0) = Some (VObj 1).
Proof. repeat split; vm_compute; reflexivity. Qed.

(** ** The registry never loses an identifier *)

Lemma bound_new_Injector : bound new_Injector.
Proof. intros K l H. done. Qed.

Lemma retains_refl s : retains s s.
Proof. by split. Qed.

Lemma retains_trans s1 s2 s3 : retains s1 s2 → retains s2 s3 → retains s1 s3.
Proof. intros [H12 B12] [H23 B23]. split; auto. Qed.

Lemma retains_same s s' :
  _registry s' = _registry s → length (items s') = length (items s) →
  retains s s'.
Proof.
  intros Hreg Hlen. split.
  - intros K. by rewrite Hreg.
  - intros Hb K l. rewrite Hreg, Hlen. apply Hb.
Qed.

Lemma retains_add f key token s : retains s (add f key token s).
Proof.
  split.
  - intros K HK. simpl.
    destruct (decide (key = K)) as [->|Hk]; [by rewrite lookup_insert_eq|].
    rewrite lookup_insert_ne by done. destruct token as [t|]; [|done].
    destruct (decide (t = K)) as [->|Ht]; [by rewrite lookup_insert_eq|].
    by rewrite lookup_insert_ne.
  - intros Hb K l. simpl. rewrite length_app. simpl.
    destruct (decide (key = K)) as [->|Hk].
    { rewrite lookup_insert_eq. intros [= <-]. lia. }
    rewrite lookup_insert_ne by done. destruct token as [t|].
    + destruct (decide (t = K)) as [->|Ht].
      { rewrite lookup_insert_eq. intros [= <-]. lia. }
      rewrite lookup_insert_ne by done. intros H. specialize (Hb _ _ H). lia.
    + intros H. specialize (Hb _ _ H). lia.
Qed.

Lemma run_retains n p s s' : final (run n p s) = Some s' → retains s s'.
Proof.
  apply (interp_respects retains retains_refl retains_trans).
  - intros e s0. by apply retains_same.
  - intros l s0. apply retains_same; [done|]. simpl. apply length_alter.
  - intros l v s0. apply retains_same; [done|]. simpl. apply length_alter.
  - intros g s0. by apply retains_same.
  - apply retains_add.
Qed.

(** X1. There is no way to unregister.  In a container without dangling
    registry entries, an identifier that is registered stays registered
    through any client code, re-registrations included, and the lookup that
    opens [get] finds a StoreItem for it: [get] cannot fail on it with "is
    not registered". *)
Theorem registered_stays_resolvable
    (n : nat) (p : prog) (s s' : State) (K : Key) :
  bound s → is_Some (_registry s !! K) →
  final (run n p s) = Some s' →
  bound s' ∧ ∃ l it, lookup K s' = inl (l, it).
Proof.
  intros Hb HK Hrun. destruct (run_retains _ _ _ _ Hrun) as [Hdom Hbound].
  specialize (Hbound Hb). split; [done|].
  destruct (Hdom K HK) as [l Hl].
  destruct (lookup_lt_is_Some_2 (items s') l (Hbound _ _ Hl)) as [it Hit].
  exists l, it. by apply lookup_inl.
Qed.

Lemma registered_stays_resolvable_witness :
  ∃ s' l it,
    final (run 12 (Provide Example.plain Example.A None
                     (Resolve Example.B default_options Ret)) Example.cyclic)
      = Some s' ∧
    lookup Example.A s' = inl (l, it).
Proof.
  set (p := Provide Example.plain Example.A None
              (Resolve Example.B default_options Ret)).
  set (s' := match final (run 12 p Example.cyclic) with
             | Some s' => s'
             | None => Example.cyclic
             end).
  assert (Hrun : final (run 12 p Example.cyclic) = Some s')
    by (vm_compute; reflexivity).
  destruct (registered_stays_resolvable 12 p Example.cyclic s' Example.A)
    as (_ & l & it & Hl).
  - apply (proj2 (retains_trans _ _ _ (retains_add _ _ _ _) (retains_add _ _ _ _))).
    apply bound_new_Injector.
  - vm_compute. eauto.
  - exact Hrun.
  - exists s', l, it. split; [exact Hrun | exact Hl].
Defined.

(** ** The slot is written only after the flag *)

Lemma empty_until_initialized_new : empty_until_initialized new_Injector.
Proof. intros l it H. done. Qed.

(** X2. In every state reached from a container in which each StoreItem that
    is not initialized has an empty slot (a new container is one), each
    StoreItem that is not initialized has an empty slot: a populated slot
    implies [initialized = true]. *)
Theorem slot_filled_only_when_initialized
    (n : nat) (p : prog) (s s' : State) :
  empty_until_initialized s →
  final (run n p s) = Some s' →
  empty_until_initialized s' ∧
  ∀ l it, items s' !! l = Some it → instance it ≠ VNull → initialized it = true.
Proof.
  intros He Hrun. apply run_evolves in Hrun.
  assert (He' : empty_until_initialized s').
  { intros l it Hit Hi.
    destruct (ev_fresh _ _ Hrun _ _ Hit Hi) as [Hsame|[_ Hnull]]; [|done].
    by apply (He l). }
  split; [done|]. intros l it Hit Hne.
  destruct (initialized it) eqn:Hi; [done|]. by specialize (He' _ _ Hit Hi).
Qed.

Lemma slot_filled_only_when_initialized_witness :
  empty_until_initialized Example.cyclic_resolved.
Proof.
  refine (proj1 (slot_filled_only_when_initialized 12 Example.wire_and_resolve
                   new_Injector Example.cyclic_resolved _ _)).
  - apply empty_until_initialized_new.
  - vm_compute. reflexivity.
Defined.

(** ** Dependencies without a cycle *)

Lemma set_initialized_other l l' s : l ≠ l' →
  items (log (EvFactory l true VUndef) (set_initialized l s)) !! l' = items s !! l'.
Proof.
  intros Hne. unfold set_initialized, log, with_items. cbn [items].
  by rewrite list_lookup_alter_ne.
Qed.

Lemma set_instance_other l l' v s : l ≠ l' →
  items (set_instance l v s) !! l' = items s !! l'.
Proof.
  intros Hne. unfold set_instance, log, with_items. cbn [items].
  by rewrite list_lookup_alter_ne.
Qed.

(** X3. A factory for [A] that resolves [B], where [B]'s factory only
    constructs: [get A] returns for every sufficient amount of fuel, no
    deferred reference is created, [A]'s constructor receives the very
    value that is stored as [B]'s singleton, and a later [get B] returns
    that value. *)
Theorem nested_dependency_gets_the_singleton
    (A B : Key) (a b : loc) (contA : value → value → prog)
    (fB : ServiceFactory) (s : State) :
  let fA : ServiceFactory := λ p, Resolve B default_options (contA p) in
  a ≠ b →
  _registry s !! A = Some a → _registry s !! B = Some b →
  items s !! a = Some {| initialized := false; factory := fA; instance := VNull |} →
  items s !! b = Some {| initialized := false; factory := fB; instance := VNull |} →
  (∀ p dep, constructs (contA p dep)) → (∀ p, constructs (fB p)) →
  ∃ n vA vB s_B s_A,
    let s' := set_instance a vA s_A in
    (∀ m, n ≤ m → get m A default_options s = Done vA s') ∧
    (∀ m, n ≤ m → run m (contA VUndef vB) (set_instance b vB s_B) = Done vA s_A) ∧
    items s' !! a = Some {| initialized := true; factory := fA; instance := vA |} ∧
    items s' !! b = Some {| initialized := true; factory := fB; instance := vB |} ∧
    trace s' = trace s ++
      [EvInit a; EvFactory a true VUndef; EvInit b; EvFactory b true VUndef;
       EvStore b vB; EvStore a vA] ∧
    (truthy vB = true → ∀ j, get (S j) B default_options s' = Done vB s').
Proof.
  intros fA Hab HregA HregB HitA HitB HcA HcB.
  set (itA := {| initialized := false; factory := fA; instance := VNull |}) in *.
  set (itB := {| initialized := false; factory := fB; instance := VNull |}) in *.
  set (s1 := log (EvFactory a true VUndef) (set_initialized a s)).
  set (s2 := log (EvFactory b true VUndef) (set_initialized b s1)).
  assert (HlA : lookup A s = inl (a, itA)) by by apply lookup_inl.
  assert (Hb1 : items s1 !! b = Some itB) by (unfold s1; by rewrite set_initialized_other).
  assert (Ha1 : items s1 !! a = Some {| initialized := true; factory := fA;
                                        instance := VNull |}).
  { unfold s1. by rewrite items_log, (set_initialized_lookup _ _ _ HitA). }
  assert (HlB : lookup B s1 = inl (b, itB)) by by apply lookup_inl.
  assert (Ha2 : items s2 !! a = Some {| initialized := true; factory := fA;
                                        instance := VNull |}).
  { unfold s2. by rewrite set_initialized_other. }
  assert (Hb2 : items s2 !! b = Some {| initialized := true; factory := fB;
                                        instance := VNull |}).
  { unfold s2. by rewrite items_log, (set_initialized_lookup _ _ _ Hb1). }
  destruct (HcB VUndef s2) as (dB & vB & s4 & HrunB & Hreg4 & Hit4 & Htr4).
  set (s5 := set_instance b vB s4).
  destruct (HcA VUndef vB s5) as (dA & vA & s6 & HrunA & Hreg6 & Hit6 & Htr6).
  exists (dA + dB + 3), vA, vB, s4, s6. intros s7.
  assert (Hb4 : items s4 !! b = Some {| initialized := true; factory := fB;
                                        instance := VNull |})
    by (rewrite Hit4; exact Hb2).
  assert (Hb5 : items s5 !! b = Some {| initialized := true; factory := fB;
                                        instance := vB |}).
  { unfold s5. by rewrite (set_instance_lookup _ _ _ _ Hb4). }
  assert (Ha5 : items s5 !! a = Some {| initialized := true; factory := fA;
                                        instance := VNull |}).
  { unfold s5. rewrite set_instance_other by done. by rewrite Hit4. }
  rewrite <- Hit6 in Ha5, Hb5.
  assert (Hb7 : items s7 !! b = Some {| initialized := true; factory := fB;
                                        instance := vB |}).
  { unfold s7. by rewrite set_instance_other. }
  split; [|split; [|split; [|split; [|split]]]].
  - intros m Hm. destruct m as [|[|[|m]]]; try lia.
    rewrite (get_construct _ _ _ _ _ _ HlA) by done.
    cbn [params default_options factory itA]. unfold fA at 1. fold s1.
    rewrite run_Resolve.
    rewrite (get_construct _ _ _ _ _ _ HlB) by done.
    cbn [params default_options factory itB]. fold s2.
    rewrite HrunB by lia. cbn [bind]. fold s5.
    rewrite HrunA by lia. done.
  - intros m Hm. fold s5. apply HrunA. lia.
  - unfold s7. by rewrite (set_instance_lookup _ _ _ _ Ha5).
  - done.
  - unfold s7. cbn [trace set_instance log with_items]. rewrite Htr6.
    unfold s5. cbn [trace set_instance log with_items]. rewrite Htr4.
    unfold s2, s1. cbn [trace log set_initialized with_items].
    by rewrite <- !app_assoc.
  - intros Hv j.
    assert (HlB7 : lookup B s7 = inl (b, {| initialized := true; factory := fB;
                                             instance := vB |})).
    { apply lookup_inl. split; [|done].
      unfold s7. cbn [_registry set_instance log with_items].
      rewrite Hreg6. unfold s5. cbn [_registry set_instance log with_items].
      by rewrite Hreg4. }
    by rewrite (get_memo _ _ _ _ _ _ HlB7).
Qed.

Lemma nested_dependency_gets_the_singleton_witness :
  let s := add Example.plain Example.B None
             (add Example.fA Example.A None new_Injector) in
  ∃ n vA s', get n Example.A default_options s = Done vA s' ∧
             get 1 Example.B default_options s' = Done (VObj 0) s'.
Proof.
  intros s.
  destruct (nested_dependency_gets_the_singleton Example.A Example.B 0 1
              (λ _ b, NewObj [("b", b)] Ret) Example.plain s)
    as (n & vA & vB & s_B & s_A & Hget & HA & _ & Hb & _ & Hlater).
  - lia.
  - reflexivity.
  - reflexivity.
  - reflexivity.
  - reflexivity.
  - intros p dep. apply builds_constructs, builds_NewObj. intros v. apply builds_Ret.
  - intros p. apply builds_constructs, builds_NewObj. intros v. apply builds_Ret.
  - cbv zeta in Hget, Hb, Hlater.
    remember (set_instance 0 vA s_A) as s' eqn:Es.
    exists (n + 6), vA, s'.
    specialize (Hget (n + 6) ltac:(lia)). split; [exact Hget|].
    set (s6 := match get 6 Example.A default_options s with
               | Done _ s6 => s6
               | _ => s
               end).
    assert (H6 : get 6 Example.A default_options s = Done (VObj 1) s6)
      by (vm_compute; reflexivity).
    rewrite (get_more_fuel 6 (n + 6)) in Hget by first [lia | by rewrite H6].
    rewrite H6 in Hget. injection Hget as _ Hs. clear Es. subst s'.
    assert (HvB : vB = VObj 0) by (vm_compute in Hb; by injection Hb).
    subst vB. by apply Hlater.
Defined.

(** ** A service that depends on itself *)

(** X4. A factory for [A] that resolves [A] itself and then only constructs:
    [get A] returns for every sufficient amount of fuel.  The factory runs
    once; its own resolve finds [initialized = true] with an empty slot and
    hands the constructor a deferred reference to [A]. *)
Theorem self_dependency_resolves
    (A : Key) (a : loc) (cont : value → value → prog) (s : State) :
  let fA : ServiceFactory := λ p, Resolve A default_options (cont p) in
  _registry s !! A = Some a →
  items s !! a = Some {| initialized := false; factory := fA; instance := VNull |} →
  (∀ p dep, constructs (cont p dep)) →
  let d := length (objs s) in
  let s_in := log (EvFactory a true VUndef) (set_initialized a s) in
  let s_ref := log (EvDeferred A d) (alloc [] s_in) in
  ∃ n vA s_A,
    let s' := set_instance a vA s_A in
    (∀ m, n ≤ m → get m A default_options s = Done vA s') ∧
    (∀ m, n ≤ m → run m (cont VUndef (VProxy d A)) s_ref = Done vA s_A) ∧
    items s' !! a = Some {| initialized := true; factory := fA; instance := vA |} ∧
    trace s' = trace s ++
      [EvInit a; EvFactory a true VUndef; EvDeferred A d; EvStore a vA].
Proof.
  intros fA Hreg Hit Hc d s_in s_ref.
  set (itA := {| initialized := false; factory := fA; instance := VNull |}) in *.
  assert (HlA : lookup A s = inl (a, itA)) by by apply lookup_inl.
  assert (Ha1 : items s_in !! a = Some {| initialized := true; factory := fA;
                                          instance := VNull |}).
  { unfold s_in. by rewrite items_log, (set_initialized_lookup _ _ _ Hit). }
  assert (HlA1 : lookup A s_in = inl (a, {| initialized := true; factory := fA;
                                            instance := VNull |}))
    by by apply lookup_inl.
  destruct (Hc VUndef (VProxy d A) s_ref) as (dA & vA & s4 & Hrun & Hreg4 & Hit4 & Htr4).
  exists (dA + 3), vA, s4. intros s'.
  assert (Ha4 : items s4 !! a = Some {| initialized := true; factory := fA;
                                        instance := VNull |})
    by (rewrite Hit4; exact Ha1).
  split; [|split; [|split]].
  - intros m Hm. destruct m as [|[|[|m]]]; try lia.
    rewrite (get_construct _ _ _ _ _ _ HlA) by done.
    cbn [params default_options factory itA]. unfold fA at 1. fold s_in.
    rewrite run_Resolve, (get_deferred _ _ _ _ _ _ HlA1) by done.
    cbn [bind]. fold d. fold s_ref. rewrite Hrun by lia. done.
  - intros m Hm. apply Hrun. lia.
  - unfold s'. by rewrite (set_instance_lookup _ _ _ _ Ha4).
  - unfold s'. cbn [trace set_instance log with_items]. rewrite Htr4.
    unfold s_ref, s_in. cbn [trace log alloc with_objs set_initialized with_items].
    by rewrite <- !app_assoc.
Qed.

Lemma self_dependency_resolves_witness :
  let s := add (λ _, Resolve Example.A default_options
                       (λ me, NewObj [("me", me)] Ret))
               Example.A None new_Injector in
  ∃ n vA s', get n Example.A default_options s = Done vA s' ∧
             trace s' = [EvInit 0; EvFactory 0 true VUndef;
                         EvDeferred Example.A 0; EvStore 0 vA].
Proof.
  intros s.
  destruct (self_dependency_resolves Example.A 0 (λ _ me, NewObj [("me", me)] Ret) s)
    as (n & vA & s_A & Hget & _ & _ & Htrace).
  - reflexivity.
  - reflexivity.
  - intros p dep. apply builds_constructs, builds_NewObj. intros v. apply builds_Ret.
  - exists n, vA, (set_instance 0 vA s_A). split; [by apply Hget | exact Htrace].
Defined.

(** ** Using a deferred reference *)

Lemma field_define_other d o P V s :
  d ≠ o → ∀ Q, field o Q (define_field d P V s) = field o Q s.
Proof.
  intros Hne Q. unfold field, define_field, with_objs. cbn [objs].
  by rewrite list_lookup_alter_ne.
Qed.

Lemma proxy_read_forwards n d K P R s l it o :
  lookup K s = inl (l, it) → initialized it = true → instance it = VObj o →
  JS_Get (S (S n)) (VProxy d K) P R s = Done (field o P s) s.
Proof.
  intros Hl Hi Ho. rewrite JS_Get_proxy. unfold handler_get.
  rewrite (get_memo _ _ _ _ _ _ Hl); try done; [|by rewrite Ho].
  rewrite Ho. reflexivity.
Qed.

(** X5. Once the identifier of a deferred reference is bound to a StoreItem
    whose slot holds an ordinary object, a read through the reference
    returns that object's property and changes nothing.  The reference
    keeps no snapshot: what counts is the StoreItem the identifier is bound
    to when the read happens. *)
Theorem deferred_read_reaches_the_instance
    (n : nat) (d : loc) (K : Key) (P : string) (s : State)
    (l : loc) (it : StoreItem) (o : loc) :
  lookup K s = inl (l, it) → initialized it = true → instance it = VObj o →
  JS_Get (S (S n)) (VProxy d K) P (VProxy d K) s = Done (field o P s) s ∧
  run (S (S (S n))) (ReadProp (VProxy d K) P Ret) s = Done (field o P s) s.
Proof.
  intros Hl Hi Ho. split; [by eapply proxy_read_forwards|].
  rewrite run_ReadProp_proxy.
  by rewrite (proxy_read_forwards n d K P _ s l it o).
Qed.

Lemma deferred_read_reaches_the_instance_witness :
  run 3 (ReadProp Example.ref_to_A "b" Ret) Example.cyclic_resolved
    = Done (VObj 1) Example.cyclic_resolved.
Proof.
  refine (proj2 (deferred_read_reaches_the_instance 0 0 Example.A "b"
                   Example.cyclic_resolved 0
                   {| initialized := true; factory := Example.fA;
                      instance := VObj 2 |} 2 _ _ _)).
  - vm_compute. reflexivity.
  - reflexivity.
  - reflexivity.
Defined.

(** X6. A write through a deferred reference whose identifier resolves to an
    ordinary object [o] reports success, changes no StoreItem and no
    property of [o]: the value is stored on the reference's own target
    [d], and reading the property back through the reference still yields
    what [o] holds. *)
Theorem deferred_write_misses_the_instance
    (n : nat) (d : loc) (K : Key) (P : string) (V : value) (s : State)
    (l : loc) (it : StoreItem) (o : loc) :
  lookup K s = inl (l, it) → initialized it = true → instance it = VObj o →
  d ≠ o →
  let p := VProxy d K in
  let s' := define_field d P V s in
  JS_Set (S (S n)) p P V p s = Done (VBool true) s' ∧
  items s' = items s ∧ _registry s' = _registry s ∧
  (∀ Q, field o Q s' = field o Q s) ∧
  JS_Get (S (S n)) p P p s' = Done (field o P s) s'.
Proof.
  intros Hl Hi Ho Hne p s'.
  assert (Hget : get (S n) K default_options s = Done (VObj o) s).
  { rewrite (get_memo _ _ _ _ _ _ Hl); try done; by rewrite Ho. }
  split; [exact (proxy_write_defines_on_proxy n d K P V s o s Hget)|].
  split; [done|]. split; [done|]. split; [by apply field_define_other|].
  assert (Hl' : lookup K s' = inl (l, it)).
  { apply lookup_inl in Hl as [Hreg Hit]. by apply lookup_inl. }
  unfold p. rewrite (proxy_read_forwards n d K P _ s' l it o Hl' Hi Ho).
  unfold s'. by rewrite field_define_other.
Qed.

Lemma deferred_write_misses_the_instance_witness :
  let p := Example.ref_to_A in
  let s' := define_field 0 "x" (VNum 5) Example.cyclic_resolved in
  JS_Set 2 p "x" (VNum 5) p Example.cyclic_resolved = Done (VBool true) s' ∧
  JS_Get 2 p "x" p s' = Done VUndef s'.
Proof.
  intros p s'.
  destruct (deferred_write_misses_the_instance 0 0 Example.A "x" (VNum 5)
              Example.cyclic_resolved 0
              {| initialized := true; factory := Example.fA; instance := VObj 2 |} 2)
    as (Hset & _ & _ & _ & Hread).
  - vm_compute. reflexivity.
  - reflexivity.
  - reflexivity.
  - lia.
  - split; [exact Hset | exact Hread].
Defined.

(** ** Resolving while construction is in progress *)

(** X7. While a StoreItem is initialized with an empty slot, every resolve on
    the singleton path builds a new deferred reference: two such calls
    return two different objects, call no factory and leave every
    StoreItem as it is. *)
Theorem each_deferred_reference_is_new
    (n m : nat) (K : Key) (o1 o2 : GetOptions) (s : State)
    (l : loc) (it : StoreItem) :
  lookup K s = inl (l, it) → initialized it = true →
  truthy (instance it) = false →
  singleton o1 ≠ Some false → singleton o2 ≠ Some false →
  let d := length (objs s) in
  ∃ s1 s2,
    get (S n) K o1 s = Done (VProxy d K) s1 ∧
    get (S m) K o2 s1 = Done (VProxy (S d) K) s2 ∧
    VProxy d K ≠ VProxy (S d) K ∧
    items s2 = items s ∧
    trace s2 = trace s ++ [EvDeferred K d; EvDeferred K (S d)].
Proof.
  intros Hl Hi Ht Ho1 Ho2 d.
  set (s1 := log (EvDeferred K d) (alloc [] s)).
  assert (Hl1 : lookup K s1 = inl (l, it)).
  { apply lookup_inl in Hl as [Hreg Hit]. by apply lookup_inl. }
  assert (Hd : length (objs s1) = S d).
  { unfold s1, alloc, log, with_objs. cbn [objs]. rewrite length_app. simpl.
    unfold d. lia. }
  exists s1, (log (EvDeferred K (S d)) (alloc [] s1)).
  split; [by rewrite (get_deferred _ _ _ _ _ _ Hl)|].
  split; [by rewrite (get_deferred _ _ _ _ _ _ Hl1), Hd|].
  split; [intros [= H]; lia|]. split; [done|].
  simpl. by rewrite <- app_assoc.
Qed.

Lemma each_deferred_reference_is_new_witness :
  ∃ s1 s2,
    get 1 Example.A default_options Example.stalled = Done (VProxy 1 Example.A) s1 ∧
    get 1 Example.A default_options s1 = Done (VProxy 2 Example.A) s2.
Proof.
  destruct (each_deferred_reference_is_new 0 0 Example.A default_options
              default_options Example.stalled 0
              {| initialized := true; factory := Example.throws; instance := VNull |})
    as (s1 & s2 & H1 & H2 & _).
  - vm_compute. reflexivity.
  - reflexivity.
  - reflexivity.
  - discriminate.
  - discriminate.
  - exists s1, s2. split; [exact H1 | exact H2].
Defined.

(** ** A dependency that is registered too late *)

(** X8. If [A]'s factory resolves an identifier [B] that is not registered, the
    first [get A] fails with [B]'s "is not registered" error and leaves
    [A]'s StoreItem initialized with an empty slot.  Adding [B]
    afterwards does not repair [A]: [get A] then returns a deferred
    reference and the factory of [A] is not called again. *)
Theorem late_registration_does_not_repair
    (n : nat) (A B : Key) (a : loc) (cont : value → value → prog)
    (fB : ServiceFactory) (token : option Key) (s : State) :
  let fA : ServiceFactory := λ p, Resolve B default_options (cont p) in
  _registry s !! A = Some a →
  items s !! a = Some {| initialized := false; factory := fA; instance := VNull |} →
  _registry s !! B = None → token ≠ Some A →
  let s2 := log (EvFactory a true VUndef) (set_initialized a s) in
  let s3 := add fB B token s2 in
  (∃ message,
     get (S (S (S n))) A default_options s = Raised (Error message) s2 ∧
     names message (toString B)) ∧
  items s2 !! a = Some {| initialized := true; factory := fA; instance := VNull |} ∧
  ∀ j, get (S j) A default_options s3 =
         Done (VProxy (length (objs s3)) A)
              (log (EvDeferred A (length (objs s3))) (alloc [] s3)).
Proof.
  intros fA HregA HitA HregB Htok s2 s3.
  set (itA := {| initialized := false; factory := fA; instance := VNull |}) in *.
  assert (HAB : A ≠ B) by (intros ->; congruence).
  assert (HlA : lookup A s = inl (a, itA)) by by apply lookup_inl.
  assert (Ha2 : items s2 !! a = Some {| initialized := true; factory := fA;
                                        instance := VNull |}).
  { unfold s2. by rewrite items_log, (set_initialized_lookup _ _ _ HitA). }
  assert (HlB : lookup B s2 = inr (Error (match B with
            | InjectionToken _ d => "Token " +:+ d +:+ " is not registered"
            | Constructor _ src => src +:+ " is not registered"
            end))) by by apply lookup_unregistered.
  split; [|split; [done|]].
  - eexists. split.
    + rewrite (get_construct _ _ _ _ _ _ HlA) by done.
      cbn [params default_options factory itA]. unfold fA at 1. fold s2.
      rewrite run_Resolve, get_S, HlB. reflexivity.
    + destruct B as [i src|i d]; simpl.
      * by exists EmptyString, " is not registered".
      * by exists "Token ", " is not registered".
  - intros j.
    assert (HlA3 : lookup A s3 = inl (a, {| initialized := true; factory := fA;
                                            instance := VNull |})).
    { apply lookup_inl. split.
      - unfold s3. by rewrite add_other.
      - by apply add_old_item. }
    by rewrite (get_deferred _ _ _ _ _ _ HlA3).
Qed.

Lemma late_registration_does_not_repair_witness :
  let s := add Example.fA Example.A None new_Injector in
  let s2 := log (EvFactory 0 true VUndef) (set_initialized 0 s) in
  let s3 := add Example.fB Example.B None s2 in
  get 3 Example.A default_options s = Raised (Error "class B is not registered") s2 ∧
  answer (get 1 Example.A default_options s3) = Some (inl (VProxy 0 Example.A)).
Proof.
  intros s s2 s3.
  destruct (late_registration_does_not_repair 0 Example.A Example.B 0
              (λ _ b, NewObj [("b", b)] Ret) Example.fB None s)
    as ((message & Hget & _) & _ & Hlater).
  - reflexivity.
  - reflexivity.
  - reflexivity.
  - discriminate.
  - split.
    + assert (Hm : message = "class B is not registered").
      { assert (Hc : get 3 Example.A default_options s =
                     Raised (Error "class B is not registered") s2)
          by (vm_compute; reflexivity).
        rewrite Hc in Hget. by injection Hget as <-. }
      rewrite <- Hm. exact Hget.
    + change s3 with (add Example.fB Example.B None s2). rewrite Hlater. reflexivity.
Defined.

(** X9. On the transient path the same failure marks nothing: [get] with
    [singleton: false] on a factory whose dependency [B] is not registered
    fails with [B]'s error and leaves every StoreItem as it was, so after
    [B] is registered the StoreItem of [A] is still not initialized and
    the next singleton [get A] runs the factory. *)
Theorem transient_failure_marks_nothing
    (n : nat) (A B : Key) (a : loc) (cont : value → value → prog)
    (p : value) (fB : ServiceFactory) (token : option Key) (s : State) :
  let fA : ServiceFactory := λ p, Resolve B default_options (cont p) in
  let itA := {| initialized := false; factory := fA; instance := VNull |} in
  _registry s !! A = Some a → items s !! a = Some itA →
  _registry s !! B = None → token ≠ Some A →
  let s2 := log (EvFactory a false p) s in
  (∃ message,
     get (S (S (S n))) A {| singleton := Some false; params := p |} s
       = Raised (Error message) s2 ∧
     names message (toString B)) ∧
  items s2 = items s ∧
  lookup A (add fB B token s2) = inl (a, itA).
Proof.
  intros fA itA HregA HitA HregB Htok s2.
  assert (HAB : A ≠ B) by (intros ->; congruence).
  assert (HlA : lookup A s = inl (a, itA)) by by apply lookup_inl.
  assert (HlB : lookup B s2 = inr (Error (match B with
            | InjectionToken _ d => "Token " +:+ d +:+ " is not registered"
            | Constructor _ src => src +:+ " is not registered"
            end))) by by apply lookup_unregistered.
  split; [|split; [done|]].
  - eexists. split.
    + rewrite (get_transient _ _ _ _ _ _ HlA) by done.
      cbn [params factory itA]. unfold fA at 1. fold s2.
      rewrite run_Resolve, get_S, HlB. reflexivity.
    + destruct B as [i src|i d]; simpl.
      * by exists EmptyString, " is not registered".
      * by exists "Token ", " is not registered".
  - apply lookup_inl. split.
    + by rewrite add_other.
    + by apply add_old_item.
Qed.

Lemma transient_failure_marks_nothing_witness :
  let s := add Example.fA Example.A None new_Injector in
  get 3 Example.A Example.transient s
    = Raised (Error "class B is not registered") (log (EvFactory 0 false VUndef) s).
Proof.
  intros s.
  destruct (transient_failure_marks_nothing 0 Example.A Example.B 0
              (λ _ b, NewObj [("b", b)] Ret) VUndef Example.fB None s)
    as ((message & Hget & _) & _ & _).
  - reflexivity.
  - reflexivity.
  - reflexivity.
  - discriminate.
  - assert (Hc : get 3 Example.A Example.transient s =
                 Raised (Error "class B is not registered")
                        (log (EvFactory 0 false VUndef) s))
      by (vm_compute; reflexivity).
    assert (Hm : message = "class B is not registered").
    { unfold Example.transient in Hc. rewrite Hc in Hget. by injection Hget as <-. }
    rewrite <- Hm. exact Hget.
Defined.

(** ** A deferred reference after re-registration *)

(** X10. A deferred reference resolves its identifier anew on every access.
    If the identifier is by then bound to a StoreItem that is not
    initialized (it was registered again), a read through the old reference
    calls [get] with default options, which runs that StoreItem's factory
    with [params = undefined].  When the factory returns [v], [v] is
    stored as the singleton; the read then fails with InstanceNotFound if
    [typeof v] is not ["object"], is handed to [Reflect.get] on [v]
    otherwise, and returns the property of [v] if [v] is an ordinary
    object. *)
Theorem deferred_read_constructs_after_re_registration
    (d : loc) (K : Key) (P : string) (R : value) (s : State)
    (l : loc) (it : StoreItem) (n : nat) (v : value) (s_f : State) :
  lookup K s = inl (l, it) → initialized it = false →
  (∀ m, n ≤ m →
     run m (factory it VUndef)
         (log (EvFactory l true VUndef) (set_initialized l s)) = Done v s_f) →
  let s' := set_instance l v s_f in
  items s' !! l =
    Some {| initialized := true; factory := factory it; instance := v |} ∧
  ∀ m, n ≤ m →
    get (S m) K default_options s = Done v s' ∧
    (typeof v ≠ "object" →
       JS_Get (S (S m)) (VProxy d K) P R s = Raised (instance_not_found K) s') ∧
    (typeof v = "object" →
       JS_Get (S (S m)) (VProxy d K) P R s = Reflect_get (JS_Get (S m)) v P R s') ∧
    (∀ o, v = VObj o →
       JS_Get (S (S m)) (VProxy d K) P R s = Done (field o P s') s').
Proof.
  intros Hl Hi Hrun s'. pose proof Hl as Hl'. apply lookup_inl in Hl' as [Hreg Hit].
  set (s1 := log (EvFactory l true VUndef) (set_initialized l s)) in *.
  assert (Hev : evolves s1 s_f).
  { eapply (run_evolves n). by rewrite (Hrun n). }
  assert (Hl1 : items s1 !! l = Some {| initialized := true; factory := factory it;
                                        instance := instance it |}).
  { unfold s1. by rewrite items_log, (set_initialized_lookup _ _ _ Hit). }
  pose proof (initialized_stays _ _ _ _ Hev Hl1 eq_refl) as Hlf.
  split; [unfold s'; by rewrite (set_instance_lookup _ _ _ _ Hlf)|].
  intros m Hm.
  assert (Hget : get (S m) K default_options s = Done v s').
  { rewrite (get_construct _ _ _ _ _ _ Hl) by done.
    cbn [params default_options]. fold s1. by rewrite Hrun. }
  split; [done|].
  rewrite JS_Get_proxy. unfold handler_get. rewrite Hget. simpl bind.
  split; [|split].
  - intros Hty. apply typeof_check in Hty. by rewrite Hty.
  - intros Hty. by rewrite (typeof_check_pass _ Hty).
  - intros o ->. reflexivity.
Qed.

Lemma deferred_read_constructs_after_re_registration_witness :
  let s := add Example.plain Example.A None Example.cyclic_resolved in
  ∃ s', JS_Get 4 Example.ref_to_A "x" Example.ref_to_A s = Done (VNum 1) s'.
Proof.
  intros s.
  set (s1 := log (EvFactory 2 true VUndef) (set_initialized 2 s)).
  set (s2 := alloc [("x", VNum 1)] s1).
  assert (H2 : run 2 (Example.plain VUndef) s1 = Done (VObj 3) s2)
    by (vm_compute; reflexivity).
  destruct (deferred_read_constructs_after_re_registration 0 Example.A "x"
              Example.ref_to_A s 2
              {| initialized := false; factory := Example.plain; instance := VNull |}
              2 (VObj 3) s2)
    as (_ & Hread).
  - vm_compute. reflexivity.
  - reflexivity.
  - intros m Hm. cbn [factory]. fold s1.
    rewrite (run_more_fuel 2 m) by first [lia | by rewrite H2]. exact H2.
  - destruct (Hread 2 ltac:(lia)) as (_ & _ & _ & Hobj).
    exists (set_instance 2 (VObj 3) s2). unfold Example.ref_to_A in *.
    rewrite (Hobj 3 eq_refl). f_equal; vm_compute; reflexivity.
Defined.
